(** * dz.py: a configuration language (grammar, transformer, interpreter)

    A shallow embedding of [src/dz/dz.py].  The program hands a grammar to
    Lark, turns the parse tree into Python values with the transformer [T],
    evaluates them with [interp] against a dictionary of constants and prints
    the result with [json.dumps].

    - Characters are code points below 256; a text is a [string].
    - A Python [float] is an IEEE-754 binary64 value ([spec_float]).
    - A Python [dict] inside a value is an association list in insertion
      order, written only through [dict_setitem]; the environment [env] is a
      [gmap string tree].
    - [interp] mutates [env] and may raise [KeyError]: it is a function from
      the environment to the environment left behind and an outcome.

    The file has three parts: the program, the vocabulary of the properties,
    the properties.  The functions on strings of the repository's two other
    programs, [konfpr2.py] and [konf1.py], close the first and the third
    part. *)

From Stdlib Require Import ZArith Ascii String List SpecFloat Lia.
From stdpp Require Import gmap strings list.

Set Warnings "-register-all".

Local Open Scope Z_scope.

(** ** Regular expressions, as Python's [re] runs them *)

Module Re.

(** The fragment of [re] syntax the grammar uses.  Repetition is only ever
    applied to a character class. *)
Inductive regex : Type :=
| Chr (p : ascii -> bool)      (* one character of a class: a literal, \d, [a-z] *)
| Seq (r1 r2 : regex)          (* r1 r2 *)
| Alt (r1 r2 : regex)          (* r1|r2 *)
| Opt (r : regex)              (* r? *)
| Star (p : ascii -> bool)     (* c* *)
| Plus (p : ascii -> bool).    (* c+ *)

Section Exec.
Context {A : Type}.

(** [c*] is greedy: it takes a character when it can and gives it back
    only if the rest of the pattern fails. [acc] is the text matched so
    far. *)
Fixpoint star (p : ascii -> bool) (acc s : string)
         (k : string -> string -> option A) : option A :=
  match s with
  | String c s' =>
      if p c then
        match star p (acc +:+ String c EmptyString) s' k with
        | Some a => Some a
        | None => k acc s
        end
      else k acc s
  | EmptyString => k acc s
  end.

(** The backtracking matcher: [k] is what remains of the pattern.  The
    alternatives of [r1|r2] are tried from left to right and the first one
    that lets the whole pattern match is taken, also when a later one would
    match more text. *)
Fixpoint exec (r : regex) (acc s : string)
         (k : string -> string -> option A) : option A :=
  match r with
  | Chr p =>
      match s with
      | String c s' => if p c then k (acc +:+ String c EmptyString) s' else None
      | EmptyString => None
      end
  | Seq r1 r2 => exec r1 acc s (fun acc' s' => exec r2 acc' s' k)
  | Alt r1 r2 =>
      match exec r1 acc s k with
      | Some a => Some a
      | None => exec r2 acc s k
      end
  | Opt r1 =>
      match exec r1 acc s k with
      | Some a => Some a
      | None => k acc s
      end
  | Star p => star p acc s k
  | Plus p =>
      match s with
      | String c s' => if p c then star p (acc +:+ String c EmptyString) s' k else None
      | EmptyString => None
      end
  end.
End Exec.

(** [pattern.match(text, pos)]: the match that starts at the head of [s], as
    the matched text and the text after it. *)
Definition match_ (r : regex) (s : string) : option (string * string) :=
  exec r EmptyString s (fun acc rest => Some (acc, rest)).

(** [pattern.fullmatch(text)]. *)
Definition fullmatch (r : regex) (s : string) : bool :=
  match exec r EmptyString s
          (fun _ rest => match rest with EmptyString => Some tt | _ => None end) with
  | Some _ => true
  | None => false
  end.

(** Character classes. *)
Definition lit (c : ascii) : ascii -> bool := Ascii.eqb c.

Definition between (lo hi : nat) (c : ascii) : bool :=
  let n := nat_of_ascii c in (Nat.leb lo n && Nat.leb n hi)%bool.

(* \d *)
Definition digit : ascii -> bool := between 48 57.
(* [a-zA-Z] *)
Definition letter (c : ascii) : bool := (between 97 122 c || between 65 90 c)%bool.
(* [a-zA-Z0-9] *)
Definition alnum (c : ascii) : bool := (letter c || digit c)%bool.
(* [eE] *)
Definition eE (c : ascii) : bool := (lit "e" c || lit "E" c)%bool.
(* [-+] *)
Definition sign (c : ascii) : bool := (lit "-" c || lit "+" c)%bool.
(* \s on a str pattern: TAB LF VT FF CR, FS GS RS US, space, NEL, NBSP *)
Definition space (c : ascii) : bool :=
  let n := nat_of_ascii c in
  (between 9 13 c || between 28 31 c || Nat.eqb n 32 || Nat.eqb n 133 || Nat.eqb n 160)%bool.
(* [^\n] *)
Definition not_newline (c : ascii) : bool := negb (Nat.eqb (nat_of_ascii c) 10).

End Re.

Import Re.

(** ** The grammar's terminals *)

(* NUM: /-?(\d+|\d+\.\d*|\.\d+)([eE][-+]?\d+)?/ *)
Definition NUM : regex :=
  Seq (Opt (Chr (lit "-")))
      (Seq (Alt (Plus digit)
                (Alt (Seq (Plus digit) (Seq (Chr (lit ".")) (Star digit)))
                     (Seq (Chr (lit ".")) (Plus digit))))
           (Opt (Seq (Chr eE) (Seq (Opt (Chr sign)) (Plus digit))))).

(* NAME: /[a-zA-Z][a-zA-Z0-9]*/ *)
Definition NAME : regex := Seq (Chr letter) (Star alnum).

(* %ignore /\s/ *)
Definition IGNORE_WS : regex := Chr space.

(* %ignore /#[^\n]+/ *)
Definition IGNORE_COMMENT : regex := Seq (Chr (lit "#")) (Plus not_newline).

(** ** Python floats *)

Module PyFloat.

(* binary64 *)
Definition prec : Z := 53.
Definition emax : Z := 1024.

(** The value nearest to [(-1)^neg * m * 10^e] ([0 <= m]), ties to even;
    out of range it is an infinity. *)
Definition of_decimal (neg : bool) (m e : Z) : spec_float :=
  if m =? 0 then S754_zero neg
  else if 0 <=? e then
    binary_normalize prec emax ((if neg then - m else m) * 10 ^ e) 0 neg
  else
    let '(q, e', l) := SFdiv_core_binary prec emax m 0 (10 ^ (- e)) 0 in
    binary_round_aux prec emax neg q e' l.

Fixpoint span (p : ascii -> bool) (s : string) : string * string :=
  match s with
  | String c s' =>
      if p c then let (a, b) := span p s' in (String c a, b)
      else (EmptyString, s)
  | EmptyString => (EmptyString, EmptyString)
  end.

Fixpoint digits (acc : Z) (s : string) : Z :=
  match s with
  | String c s' => digits (10 * acc + (Z.of_nat (nat_of_ascii c) - 48)) s'
  | EmptyString => acc
  end.

Definition signed (s : string) : bool * string :=
  match s with
  | String "-" r => (true, r)
  | String "+" r => (false, r)
  | _ => (false, s)
  end.

Definition exponent (s : string) : option Z :=
  match s with
  | EmptyString => Some 0
  | String c s1 =>
      if eE c then
        let (neg, s2) := signed s1 in
        let (ds, s3) := span digit s2 in
        match ds, s3 with
        | String _ _, EmptyString => Some (if neg then - digits 0 ds else digits 0 ds)
        | _, _ => None
        end
      else None
  end.

(** [float(text)] on a decimal literal: sign, digits, fraction, exponent.
    [None] is [ValueError].  (The other spellings [float] reads, such as
    [inf], [nan], digit-group underscores and surrounding blanks, are no
    part of a [NUM] token and are left out.) *)
Definition float (text : string) : option spec_float :=
  let (neg, s1) := signed text in
  let (ip, s2) := span digit s1 in
  let (fp, s3) :=
    match s2 with
    | String "." r => span digit r
    | _ => (EmptyString, s2)
    end in
  match ip +:+ fp with
  | EmptyString => None
  | mant =>
      match exponent s3 with
      | None => None
      | Some e => Some (of_decimal neg (digits 0 mant) (e - Z.of_nat (String.length fp)))
      end
  end.

End PyFloat.

Definition float := PyFloat.float.

(** The float equal to a small integer: [number 5] is [5.0]. *)
Definition number (n : Z) : spec_float :=
  binary_normalize PyFloat.prec PyFloat.emax n 0 false.

(** ** Parse trees

    The tree Lark builds for the rule [value].  The anonymous tokens
    ([->], [.], [{], [}], [$[], []], [=], [set]) are filtered out of it; an
    [assign] subtree is the pair of its [NAME] token and its [value]. *)
Inductive value : Type :=
| value_NUM (text : string)                        (* value: NUM *)
| value_dict (assigns : list (string * value))     (* value: dict *)
| value_const (name : string) (v : value)          (* value: const *)
| value_reference (name : string).                 (* value: reference *)

(** ** The parser Lark derives from the grammar

    [Lark(grammar)] is an Earley parser with the dynamic lexer: at each
    position it matches every terminal the grammar expects there with
    [pattern.match], and steps over a match of an ignored pattern.  In this
    grammar the terminals expected at one position never start with the same
    character and [pattern.match] gives one match, so that the text is read
    in one way at most; the functions below read it from left to right. *)

Module Lark.

(** Repeatedly drops an ignored pattern from the head of the text. *)
Fixpoint ignore (fuel : nat) (s : string) : string :=
  match fuel with
  | O => s
  | S n =>
      match match_ IGNORE_WS s with
      | Some (_, rest) => ignore n rest
      | None =>
          match match_ IGNORE_COMMENT s with
          | Some (_, rest) => ignore n rest
          | None => s
          end
      end
  end.

Definition skip (s : string) : string := ignore (String.length s) s.

(** An anonymous token: the text must start with it. *)
Fixpoint keyword (kw s : string) : option string :=
  match kw, s with
  | EmptyString, _ => Some s
  | String a kw', String b s' => if Ascii.eqb a b then keyword kw' s' else None
  | String _ _, EmptyString => None
  end.

(** What a parsing function does with a text: it recognises a prefix of it,
    it raises [UnexpectedInput], or the recursion budget of this model was
    too small. *)
Inductive outcome (A : Type) : Type :=
| Parsed (a : A) (rest : string)
| UnexpectedInput
| NoFuel.
Arguments Parsed {A} a rest.
Arguments UnexpectedInput {A}.
Arguments NoFuel {A}.

Definition bind {A B : Type} (m : outcome A) (f : A -> string -> outcome B) : outcome B :=
  match m with
  | Parsed a rest => f a rest
  | UnexpectedInput => UnexpectedInput
  | NoFuel => NoFuel
  end.

Definition token (r : regex) (s : string) : outcome string :=
  match match_ r (skip s) with
  | Some (text, rest) => Parsed text rest
  | None => UnexpectedInput
  end.

Definition expect (kw s : string) : outcome unit :=
  match keyword kw (skip s) with
  | Some rest => Parsed tt rest
  | None => UnexpectedInput
  end.

Notation "'let*' ( x , s ) := m 'in' f" := (bind m (fun x s => f))
  (at level 10, x pattern, s name, m at level 100, f at level 200).

(**
<<
  value:     NUM | dict | const | reference
  dict:      "{" (assign ".")+ "}"
  assign:    NAME "->" value
  const:     "set" NAME "=" value
  reference: "$[" NAME "]"
>>
    [parse_assigns] reads [(assign ".")+ "}"]. *)
Fixpoint parse_value (fuel : nat) (s : string) {struct fuel} : outcome value :=
  match fuel with
  | O => NoFuel
  | S n =>
      let s := skip s in
      match match_ NUM s with
      | Some (text, rest) => Parsed (value_NUM text) rest
      | None =>
      match keyword "{" s with
      | Some rest =>
          let* (assigns, rest) := parse_assigns n rest in
          Parsed (value_dict assigns) rest
      | None =>
      match keyword "set" s with
      | Some rest =>
          let* (name, rest) := token NAME rest in
          let* (_, rest) := expect "=" rest in
          let* (v, rest) := parse_value n rest in
          Parsed (value_const name v) rest
      | None =>
      match keyword "$[" s with
      | Some rest =>
          let* (name, rest) := token NAME rest in
          let* (_, rest) := expect "]" rest in
          Parsed (value_reference name) rest
      | None => UnexpectedInput
      end end end end
  end
with parse_assigns (fuel : nat) (s : string) {struct fuel}
     : outcome (list (string * value)) :=
  match fuel with
  | O => NoFuel
  | S n =>
      let* (name, rest) := token NAME s in
      let* (_, rest) := expect "->" rest in
      let* (v, rest) := parse_value n rest in
      let* (_, rest) := expect "." rest in
      match keyword "}" (skip rest) with
      | Some rest => Parsed [(name, v)] rest
      | None =>
          let* (assigns, rest) := parse_assigns n rest in
          Parsed ((name, v) :: assigns) rest
      end
  end.

(* start: value+ *)
Fixpoint parse_start (fuel : nat) (s : string) : outcome (list value) :=
  match fuel with
  | O => NoFuel
  | S n =>
      let* (v, rest) := parse_value (S n) s in
      match skip rest with
      | EmptyString => Parsed [v] EmptyString
      | _ =>
          let* (vs, rest) := parse_start n rest in
          Parsed (v :: vs) rest
      end
  end.

(** [Lark(grammar).parse(text)] *)
Definition parse (text : string) : outcome (list value) :=
  parse_start (S (String.length text)) text.

End Lark.

(** ** Python values

    The values the transformer builds and [interp] walks, one constructor
    per shape [interp] tells apart:
    - [VFloat]: a [float]; [VStr]: a [str];
    - [VDict]: a [dict] with [str] keys, in insertion order;
    - [VList]: a [list];
    - [VConst name value]: the tuple [("const", [name, value])];
    - [VRef name]: the tuple [("ref", name)]. *)
Inductive tree : Type :=
| VFloat (x : spec_float)
| VStr (s : string)
| VDict (d : list (string * tree))
| VList (l : list tree)
| VConst (name : string) (value : tree)
| VRef (name : string).

(** [d[k] = v] on an insertion-ordered dictionary: a key already present
    keeps its place and gets the new value, a new key goes last. *)
Fixpoint dict_setitem {A : Type} (d : list (string * A)) (k : string) (v : A)
  : list (string * A) :=
  match d with
  | [] => [(k, v)]
  | (k', v') :: d' =>
      if String.eqb k' k then (k', v) :: d'
      else (k', v') :: dict_setitem d' k v
  end.

(** [d[k]], [None] when the key is missing. *)
Fixpoint dict_getitem {A : Type} (d : list (string * A)) (k : string) : option A :=
  match d with
  | [] => None
  | (k', v') :: d' => if String.eqb k' k then Some v' else dict_getitem d' k
  end.

(** [dict(pairs)]: the pairs are inserted from left to right. *)
Definition dict {A : Type} (pairs : list (string * A)) : list (string * A) :=
  fold_left (fun d kv => dict_setitem d kv.1 kv.2) pairs [].

(** ** The transformer [T] *)

Module T.

(* NUM = float *)
Definition NUM (text : string) : option tree := VFloat <$> float text.

(* NAME = str *)
Definition NAME (text : string) : string := text.

(* def start(self, name): return name *)
Definition start (name : list tree) : tree := VList name.

(* def assign(self, name): return name          -- the list [NAME, value] *)
Definition assign (k : string) (v : tree) : string * tree := (k, v).

(* def dict(self, name): return dict(name) *)
Definition dict (name : list (string * tree)) : tree := VDict (dict name).

(* def reference(self, name): return ("ref", name[0]) *)
Definition reference (name : string) : tree := VRef name.

(* def const(self, name): return ("const", name) *)
Definition const (name : string) (v : tree) : tree := VConst name v.

(** [T(visit_tokens=True).transform]: bottom-up, children from left to
    right; [None] when [float] raises [ValueError].  The rule [value]
    returns its only child ([name[0]]).  This is the transformer on a Python
    stack that is deep enough for the tree; [transform_within] below has the
    stack as well. *)
Fixpoint transform (t : value) : option tree :=
  match t with
  | value_NUM text => NUM text
  | value_dict assigns =>
      dict <$>
        (fix children (l : list (string * value)) : option (list (string * tree)) :=
           match l with
           | [] => Some []
           | (k, v) :: l' =>
               match transform v, children l' with
               | Some v', Some r => Some (assign (NAME k) v' :: r)
               | _, _ => None
               end
           end) assigns
  | value_const name v => const (NAME name) <$> transform v
  | value_reference name => Some (reference (NAME name))
  end.

Fixpoint transform_all (l : list value) : option (list tree) :=
  match l with
  | [] => Some []
  | v :: l' =>
      match transform v, transform_all l' with
      | Some v', Some r => Some (v' :: r)
      | _, _ => None
      end
  end.

Definition transform_start (l : list value) : option tree :=
  start <$> transform_all l.

(** *** The transformer on a stack of a given depth

    Lark's [Transformer] walks the parse tree by recursion:
    [_transform_tree] calls itself, through the generator
    [_transform_children], on every subtree, and calls the method of [T]
    when the children are done.  On a tree nested deeper than Python's stack
    has room for, the walk ends in [RecursionError] (handed on as such, or
    inside Lark's [VisitError] when it arises in the call of the method).
    [stack] is the number of nested trees the stack has room for: what
    [sys.getrecursionlimit()] leaves, in trees, after the frames in use.
    Every tree of the parse tree takes one: [start], [value], [dict],
    [assign], [const] and [reference]; a token takes none. *)
Inductive error : Type :=
| ValueError            (* raised by float *)
| RecursionError.       (* no room left on the stack *)

Fixpoint transform_within (stack : nat) (t : value) {struct t} : error + tree :=
  match stack with
  | O => inl RecursionError
  | S stack1 =>
      (* in the tree value *)
      match t with
      | value_NUM text =>
          match NUM text with
          | Some x => inr x
          | None => inl ValueError
          end
      | value_dict assigns =>
          match stack1 with
          | O => inl RecursionError
          | S stack2 =>
              (* in the tree dict *)
              match
                (fix children (l : list (string * value)) : error + list (string * tree) :=
                   match l with
                   | [] => inr []
                   | (k, v) :: l' =>
                       match stack2 with
                       | O => inl RecursionError
                       | S stack3 =>
                           (* in the tree assign *)
                           match transform_within stack3 v with
                           | inr v' =>
                               match children l' with
                               | inr r => inr (assign (NAME k) v' :: r)
                               | inl e => inl e
                               end
                           | inl e => inl e
                           end
                       end
                   end) assigns
              with
              | inr name => inr (dict name)
              | inl e => inl e
              end
          end
      | value_const name v =>
          match stack1 with
          | O => inl RecursionError
          | S stack2 =>
              (* in the tree const *)
              match transform_within stack2 v with
              | inr v' => inr (const (NAME name) v')
              | inl e => inl e
              end
          end
      | value_reference name =>
          match stack1 with
          | O => inl RecursionError
          | S _ => inr (reference (NAME name))
          end
      end
  end.

Fixpoint transform_all_within (stack : nat) (l : list value) : error + list tree :=
  match l with
  | [] => inr []
  | v :: l' =>
      match transform_within stack v with
      | inr v' =>
          match transform_all_within stack l' with
          | inr r => inr (v' :: r)
          | inl e => inl e
          end
      | inl e => inl e
      end
  end.

Definition transform_start_within (stack : nat) (l : list value) : error + tree :=
  match stack with
  | O => inl RecursionError
  | S stack1 =>
      (* in the tree start *)
      match transform_all_within stack1 l with
      | inr name => inr (start name)
      | inl e => inl e
      end
  end.

End T.

(** ** The interpreter *)

Inductive exception : Type :=
| KeyError (name : string).

Inductive outcome : Type :=
| Return (v : tree)
| Raise (e : exception).

Section Loops.
Variable interp : tree -> gmap string tree -> gmap string tree * outcome.

(* output = dict()
   for k in tree: output[k] = interp(tree[k], env) *)
Fixpoint interp_dict (items : list (string * tree)) (env : gmap string tree)
         (output : list (string * tree)) : gmap string tree * outcome :=
  match items with
  | [] => (env, Return (VDict output))
  | (k, v) :: items' =>
      match interp v env with
      | (env', Return r) => interp_dict items' env' (dict_setitem output k r)
      | (env', Raise e) => (env', Raise e)
      end
  end.

(* output = list()
   for i in range(len(tree)): output.append(interp(tree[i], env)) *)
Fixpoint interp_list (items : list tree) (env : gmap string tree)
         (output : list tree) : gmap string tree * outcome :=
  match items with
  | [] => (env, Return (VList output))
  | v :: items' =>
      match interp v env with
      | (env', Return r) => interp_list items' env' (output ++ [r])
      | (env', Raise e) => (env', Raise e)
      end
  end.
End Loops.

(** [interp(tree, env)].  The dictionary [env] is shared and updated in
    place, so what an exception leaves behind stays in it: the result is the
    environment after the call and what the call did. *)
Fixpoint interp (t : tree) (env : gmap string tree) : gmap string tree * outcome :=
  match t with
  | VFloat _ => (env, Return t)
  | VStr _ => (env, Return t)
  | VDict d => interp_dict interp d env []
  | VList l => interp_list interp l env []
  | VConst name value =>
      (* env[name] = value; return [name, value] *)
      (<[name := value]> env, Return (VList [VStr name; value]))
  | VRef name =>
      (* return env[name] *)
      match env !! name with
      | Some v => (env, Return v)
      | None => (env, Raise (KeyError name))
      end
  end.

(** ** [json.dumps] *)

Section Json.
(** The text [json.dumps] writes for a float ([float.__repr__], and
    [Infinity], [-Infinity], [NaN]). *)
Variable float_repr : spec_float -> string.

Definition quote : string := String (ascii_of_nat 34) EmptyString.

(** A string between quotes.  (The strings of this program are [NAME]
    tokens and the two tags: letters and digits, nothing to escape.) *)
Definition dumps_str (s : string) : string := quote +:+ s +:+ quote.

Fixpoint join (sep : string) (l : list string) : string :=
  match l with
  | [] => EmptyString
  | [x] => x
  | x :: l' => x +:+ sep +:+ join sep l'
  end.

(** A tuple is written as an array. *)
Fixpoint dumps (t : tree) : string :=
  match t with
  | VFloat x => float_repr x
  | VStr s => dumps_str s
  | VDict d =>
      "{" +:+ join ", " (map (fun kv => dumps_str kv.1 +:+ ": " +:+ dumps kv.2) d) +:+ "}"
  | VList l => "[" +:+ join ", " (map dumps l) +:+ "]"
  | VConst name value =>
      "[" +:+ dumps_str "const" +:+ ", [" +:+ dumps_str name +:+ ", " +:+ dumps value +:+ "]]"
  | VRef name => "[" +:+ dumps_str "ref" +:+ ", " +:+ dumps_str name +:+ "]"
  end.
End Json.

(** ** The program

<<
  tree = parser.parse(input)
  tree = T(visit_tokens=True).transform(tree)
  tree = interp(tree, {})
>>
    on a Python stack that is deep enough for the recursion of the
    transformer and of [interp] ([T.transform_within] has the other case). *)
Inductive run_result : Type :=
| Value (env : gmap string tree) (v : tree)      (* the value handed to json.dumps *)
| LarkError                                       (* raised by parse *)
| ValueError                                      (* raised by float *)
| InterpError (env : gmap string tree) (e : exception)
| ModelNoFuel.

Definition run (input : string) : run_result :=
  match Lark.parse input with
  | Lark.Parsed l _ =>
      match T.transform_start l with
      | Some t =>
          match interp t ∅ with
          | (env, Return v) => Value env v
          | (env, Raise e) => InterpError env e
          end
      | None => ValueError
      end
  | Lark.UnexpectedInput => LarkError
  | Lark.NoFuel => ModelNoFuel
  end.

(** The value the program hands to [json.dumps], when it gets that far. *)
Definition output (input : string) : option tree :=
  match run input with
  | Value _ v => Some v
  | _ => None
  end.

Definition newline : string := String (ascii_of_nat 10) EmptyString.

(** * The other programs of the repository

    [src/pr2/konfpr2.py] fetches a Maven POM and draws its dependencies,
    [src/pr1/konf1.py] is a small shell.  Both live on input and output
    (command line, network, files, an XML library); what follows are their
    functions on strings. *)

(** ** Python strings *)

Module PyStr.

(* s.startswith(prefix) *)
Definition startswith (s prefix : string) : bool := String.prefix prefix s.

(* s.endswith(suffix) *)
Fixpoint endswith (s suffix : string) : bool :=
  String.eqb s suffix ||
  match s with
  | String _ s' => endswith s' suffix
  | EmptyString => false
  end.

(* sub in s *)
Fixpoint contains (s sub : string) : bool :=
  String.prefix sub s ||
  match s with
  | String _ s' => contains s' sub
  | EmptyString => false
  end.

(** [s.split(sep, 1)] when [sep] occurs in [s]: the text before its first
    occurrence and the text after it; [None] when it does not occur ([split]
    then returns [s] alone).  [sep] is not empty. *)
Fixpoint split1 (s sep : string) : option (string * string) :=
  match Lark.keyword sep s with
  | Some rest => Some (EmptyString, rest)
  | None =>
      match s with
      | String c s' =>
          match split1 s' sep with
          | Some (before, after) => Some (String c before, after)
          | None => None
          end
      | EmptyString => None
      end
  end.

(** [s.replace(old, new)] for a non-empty [old]: the occurrences of [old]
    are replaced from left to right, without overlap.  [skip] counts the
    characters of an occurrence that remain to be dropped. *)
Fixpoint replace_from (old new : string) (skip : nat) (s : string) : string :=
  match s with
  | EmptyString => EmptyString
  | String c s' =>
      match skip with
      | S n => replace_from old new n s'
      | O =>
          if String.prefix old s
          then new +:+ replace_from old new (String.length old - 1) s'
          else String c (replace_from old new 0 s')
      end
  end.

Definition replace (s old new : string) : string := replace_from old new 0 s.

End PyStr.

(** ** konfpr2.py *)

Module Konfpr2.

(* choices=["remote", "local"] *)
Inductive mode : Type := remote | local.

(** What [parse_args] returns. *)
Record args : Type := {
  package : string;
  version : string;
  repo : string;
  mode_ : mode;
  render : bool;
  out_dot : option string;
}.

(** The four places where [print_config_and_validate] raises [CLIError];
    the text of the message stands for itself. *)
Inductive CLIError : Type :=
| bad_package_format
| empty_group_or_artifact
| repo_is_no_url
| local_repo_not_found (repo : string).

Section Validate.
(* os.path.isdir *)
Variable isdir : string -> bool.
(* the first line printed, a text outside the characters of this file *)
Variable header : string.

Definition mode_str (m : mode) : string :=
  match m with remote => "remote" | local => "local" end.

(* str(args.render) *)
Definition str_bool (b : bool) : string := if b then "True" else "False".

(* args.out_dot or "(auto)" *)
Definition out_dot_or_auto (o : option string) : string :=
  match o with
  | Some (String c s) => String c s
  | _ => "(auto)"
  end.

Definition config (a : args) : list (string * string) :=
  [("package", package a); ("version", version a); ("repo", repo a);
   ("mode", mode_str (mode_ a)); ("render", str_bool (render a));
   ("out_dot", out_dot_or_auto (out_dot a))].

(** [print_config_and_validate(args)]: the lines printed, and the pair
    [(group_id, artifact_id)] or the [CLIError] raised. *)
Definition print_config_and_validate (a : args)
  : list string * (CLIError + string * string) :=
  (header :: map (fun kv => kv.1 +:+ "=" +:+ kv.2) (config a)
          ++ ["===================================="],
   if negb (PyStr.contains (package a) ":") then inl bad_package_format
   else
     match PyStr.split1 (package a) ":" with
     | None => inl bad_package_format
     | Some (group_id, artifact_id) =>
         match group_id, artifact_id with
         | EmptyString, _ | _, EmptyString => inl empty_group_or_artifact
         | _, _ =>
             match mode_ a with
             | remote =>
                 if negb (PyStr.startswith (repo a) "http://"
                          || PyStr.startswith (repo a) "https://")
                 then inl repo_is_no_url
                 else inr (group_id, artifact_id)
             | local =>
                 if negb (isdir (repo a)) then inl (local_repo_not_found (repo a))
                 else inr (group_id, artifact_id)
             end
         end
     end).
End Validate.

(* build_pom_path_remote(repo_url, group_id, artifact_id, version) *)
Definition build_pom_path_remote (repo_url group_id artifact_id version : string)
  : string :=
  let group_path := PyStr.replace group_id "." "/" in
  let pom_name := artifact_id +:+ "-" +:+ version +:+ ".pom" in
  if PyStr.endswith repo_url "/"
  then repo_url +:+ group_path +:+ "/" +:+ artifact_id +:+ "/" +:+ version +:+ "/" +:+ pom_name
  else repo_url +:+ "/" +:+ group_path +:+ "/" +:+ artifact_id +:+ "/" +:+ version +:+ "/"
       +:+ pom_name.

End Konfpr2.

(** ** konf1.py *)

Module Konf1.

(** [exp(a)], with [os.environ.items()] given as the list of its pairs in
    the order of iteration. *)
Definition exp (environ : list (string * string)) (a : string) : string :=
  fold_left (fun a kv => PyStr.replace a ("$" +:+ kv.1) kv.2) environ a.

End Konf1.

(** * The vocabulary of the properties *)

(** ** Values *)

(** Does the tuple [("const", ...)] occur anywhere in the value? *)
Fixpoint has_const (t : tree) : bool :=
  match t with
  | VFloat _ | VStr _ | VRef _ => false
  | VDict d => existsb (fun kv => has_const kv.2) d
  | VList l => existsb has_const l
  | VConst _ _ => true
  end.

(** Does [interp] reach a declaration of [x] in the value?  (It does not
    walk the value of a declaration.) *)
Fixpoint declares (x : string) (t : tree) : bool :=
  match t with
  | VFloat _ | VStr _ | VRef _ => false
  | VDict d => existsb (fun kv => declares x kv.2) d
  | VList l => existsb (declares x) l
  | VConst name _ => String.eqb name x
  end.


(** ** References that are reached *)

Section Names.
Variable bound_after : tree -> gset string -> option (gset string).

Fixpoint bound_after_dict (items : list (string * tree)) (names : gset string)
  : option (gset string) :=
  match items with
  | [] => Some names
  | (_, v) :: items' =>
      match bound_after v names with
      | Some names' => bound_after_dict items' names'
      | None => None
      end
  end.

Fixpoint bound_after_list (items : list tree) (names : gset string)
  : option (gset string) :=
  match items with
  | [] => Some names
  | v :: items' =>
      match bound_after v names with
      | Some names' => bound_after_list items' names'
      | None => None
      end
  end.
End Names.

(** A pass over the names only, in the order of [interp]: a declaration
    binds its name (its value is not walked), a reference needs its name
    bound.  [None]: some reference met a name that was not bound. *)
Fixpoint bound_after (t : tree) (names : gset string) : option (gset string) :=
  match t with
  | VFloat _ | VStr _ => Some names
  | VDict d => bound_after_dict bound_after d names
  | VList l => bound_after_list bound_after l names
  | VConst name _ => Some ({[name]} ∪ names)
  | VRef name => if decide (name ∈ names) then Some names else None
  end.

(** What [interp] does, told from the names. *)
Definition outcome_by_names (t : tree) (env : gmap string tree) : Prop :=
  match bound_after t (dom env) with
  | Some names =>
      dom (interp t env).1 = names /\ exists v, (interp t env).2 = Return v
  | None =>
      exists name, (interp t env).2 = Raise (KeyError name) /\
                   name ∉ dom (interp t env).1
  end.

(** ** Dictionaries *)

(** [d.update(pairs)] *)
Definition dict_update {A : Type} (d : list (string * A)) (pairs : list (string * A))
  : list (string * A) :=
  fold_left (fun d kv => dict_setitem d kv.1 kv.2) pairs d.

(** Two dictionaries that differ at most in the value of key [k]. *)
Definition differ_at {A : Type} (k : string) (d d' : list (string * A)) : Prop :=
  Forall2 (fun p q => p.1 = q.1 /\ (p.1 <> k -> p.2 = q.2)) d d'.

(** ** Parse trees *)

Definition is_NUM (v : value) : bool :=
  match v with
  | value_NUM _ => true
  | _ => false
  end.

(** Every [dict] node of the parse tree has at least one [assign]. *)
Fixpoint no_empty_dict (v : value) : bool :=
  match v with
  | value_NUM _ | value_reference _ => true
  | value_dict assigns =>
      match assigns with
      | [] => false
      | _ => forallb (fun kv => no_empty_dict kv.2) assigns
      end
  | value_const _ v' => no_empty_dict v'
  end.

(** ** The scenario of the specification *)

Definition scenario : string :=
  "5" +:+ newline +:+
  "set a = 5" +:+ newline +:+
  "{ A -> 10. B -> { Z -> 10. a -> 20. e -> $[a]. }. C -> 5. }".

(** The result the specification announces, with [e] equal to [20.0]. *)
Definition scenario_announced : tree :=
  VList [VFloat (number 5);
         VList [VStr "a"; VFloat (number 5)];
         VDict [("A", VFloat (number 10));
                ("B", VDict [("Z", VFloat (number 10));
                             ("a", VFloat (number 20));
                             ("e", VFloat (number 20))]);
                ("C", VFloat (number 5))]].

(** The same with [e] equal to [5.0], the value of the constant [a]. *)
Definition scenario_result : tree :=
  VList [VFloat (number 5);
         VList [VStr "a"; VFloat (number 5)];
         VDict [("A", VFloat (number 10));
                ("B", VDict [("Z", VFloat (number 10));
                             ("a", VFloat (number 20));
                             ("e", VFloat (number 5))]);
                ("C", VFloat (number 5))]].

(** ** The language of a pattern *)

(** Every character of the text is in the class. *)
Fixpoint all (p : ascii -> bool) (s : string) : bool :=
  match s with
  | EmptyString => true
  | String c s' => p c && all p s'
  end.

(** The texts a pattern describes. *)
Inductive lang : regex -> string -> Prop :=
| lang_Chr p c : p c = true -> lang (Chr p) (String c EmptyString)
| lang_Seq r1 r2 s1 s2 : lang r1 s1 -> lang r2 s2 -> lang (Seq r1 r2) (s1 +:+ s2)
| lang_Alt_l r1 r2 s : lang r1 s -> lang (Alt r1 r2) s
| lang_Alt_r r1 r2 s : lang r2 s -> lang (Alt r1 r2) s
| lang_Opt_none r : lang (Opt r) EmptyString
| lang_Opt_some r s : lang r s -> lang (Opt r) s
| lang_Star p s : all p s = true -> lang (Star p) s
| lang_Plus p c s : p c = true -> all p s = true -> lang (Plus p) (String c s).

(** ** Numbers and their literals *)

(** [x] is the float of the literal [v]. *)
Definition literal_of (v : value) (x : spec_float) : Prop :=
  exists text : string, v = value_NUM text /\ float text = Some x.

(** ** Records evaluated entry by entry *)

(** The entries of a record evaluated one after the other, each in the
    environment the one before leaves behind: the values under the keys of
    the entries, in their order, and the environment at the end. *)
Inductive evaluated_in_order :
  gmap string tree -> list (string * tree) ->
  gmap string tree -> list (string * tree) -> Prop :=
| evaluated_nil env : evaluated_in_order env [] env []
| evaluated_cons env env1 env2 k t v d out :
    interp t env = (env1, Return v) ->
    evaluated_in_order env1 d env2 out ->
    evaluated_in_order env ((k, t) :: d) env2 ((k, v) :: out).

(** ** The shape of a number *)

(* optional leading - *)
Definition MINUS : regex := Opt (Chr (lit "-")).
(* optional exponent [eE][+-]?digits *)
Definition EXPONENT : regex := Opt (Seq (Chr eE) (Seq (Opt (Chr sign)) (Plus digit))).
(* a dot followed by digits *)
Definition DOT_DIGITS : regex := Seq (Chr (lit ".")) (Plus digit).

(** The shape as the specification words it: an optional leading [-],
    digits, an optional fractional part made of a dot followed by digits, an
    optional exponent; or the same without integer part, as in [.5]. *)
Definition NUMBER_announced : regex :=
  Seq MINUS
      (Seq (Alt (Seq (Plus digit) (Opt DOT_DIGITS)) DOT_DIGITS)
           EXPONENT).

(** The same, where the fractional part after an integer part is a dot
    followed by any number of digits, none included. *)
Definition NUMBER_shape : regex :=
  Seq MINUS
      (Seq (Alt (Seq (Plus digit) (Opt (Seq (Chr (lit ".")) (Star digit)))) DOT_DIGITS)
           EXPONENT).

(** The pattern of [NUM] without its second alternative. *)
Definition NUM_as_lexed : regex :=
  Seq MINUS (Seq (Alt (Plus digit) DOT_DIGITS) EXPONENT).

(** ** The input of the program

    The text the file parses when it is run; its first line is a comment in
    Cyrillic, given here by a Latin word (a comment is skipped whatever it
    holds). *)
Definition input : string :=
  newline +:+
  " #comment" +:+ newline +:+
  "5" +:+ newline +:+
  "50" +:+ newline +:+
  "set a = 5" +:+ newline +:+
  "{" +:+ newline +:+
  "    A -> 10." +:+ newline +:+
  "    B -> { Z -> 10. a -> 20. r-> 30. e->$[a].}." +:+ newline +:+
  "    C -> 5." +:+ newline +:+
  " }" +:+ newline +:+
  "set qq = 465" +:+ newline +:+
  "set tt = 555" +:+ newline.

(** ** Plain values *)

(** Neither a declaration nor a reference occurs in the value. *)
Fixpoint resolved (t : tree) : bool :=
  match t with
  | VFloat _ | VStr _ => true
  | VDict d => forallb (fun kv => resolved kv.2) d
  | VList l => forallb resolved l
  | VConst _ _ | VRef _ => false
  end.

(** Every dictionary of the value has its keys once, as a Python [dict]
    has. *)
Fixpoint proper_dicts (t : tree) : bool :=
  match t with
  | VFloat _ | VStr _ | VRef _ => true
  | VDict d => bool_decide (NoDup (map fst d)) && forallb (fun kv => proper_dicts kv.2) d
  | VList l => forallb proper_dicts l
  | VConst _ value => proper_dicts value
  end.

(** Every declaration [interp] reaches has a value in which neither a
    declaration nor a reference occurs. *)
Fixpoint plain_consts (t : tree) : bool :=
  match t with
  | VFloat _ | VStr _ | VRef _ => true
  | VDict d => forallb (fun kv => plain_consts kv.2) d
  | VList l => forallb plain_consts l
  | VConst _ value => resolved value
  end.

(** Every [NUM] token of the parse tree is a text [float] reads. *)
Fixpoint floats_read (v : value) : bool :=
  match v with
  | value_NUM text => bool_decide (is_Some (float text))
  | value_dict assigns => forallb (fun kv => floats_read kv.2) assigns
  | value_const _ v' => floats_read v'
  | value_reference _ => true
  end.

(** The number of trees nested in the parse tree of a value: the tree
    [value] itself and, below it, [dict], [assign] and the value of an
    entry, or [const] and its value, or [reference]. *)
Fixpoint levels (v : value) : nat :=
  match v with
  | value_NUM _ => 1
  | value_dict assigns =>
      2 + (fix entries (l : list (string * value)) : nat :=
             match l with
             | [] => O
             | (_, v') :: l' => Nat.max (1 + levels v') (entries l')
             end) assigns
  | value_const _ v' => 2 + levels v'
  | value_reference _ => 2
  end%nat.

(** The same for a program: the tree [start] and its values. *)
Definition levels_start (l : list value) : nat :=
  S (foldr (fun v n => Nat.max (levels v) n) O l).

(** The elements of a list in the order of their first occurrence. *)
Fixpoint first_occurrences (l : list string) : list string :=
  match l with
  | [] => []
  | k :: l' => k :: filter (fun k' => k' <> k) (first_occurrences l')
  end.

(** The environment holds plain values only. *)
Definition resolved_env (env : gmap string tree) : Prop :=
  map_Forall (fun _ v => resolved v = true) env.

(** [interp] keeps the environment and its result plain. *)
Definition keeps_resolved (t : tree) : Prop :=
  forall env : gmap string tree,
    resolved_env env -> plain_consts t = true ->
    resolved_env (interp t env).1 /\
    forall v, (interp t env).2 = Return v -> resolved v = true.

(** The children of a [dict] node, transformed from left to right. *)
Definition children_of (transform : value -> option tree) :=
  fix children (l : list (string * value)) : option (list (string * tree)) :=
    match l with
    | [] => Some []
    | (k, v) :: l' =>
        match transform v, children l' with
        | Some v', Some r => Some (T.assign (T.NAME k) v' :: r)
        | _, _ => None
        end
    end.

(** ** Induction on parse trees *)

Section value_induction.
Variable P : value -> Prop.
Hypothesis HNUM : forall text, P (value_NUM text).
Hypothesis Hdict : forall assigns, Forall (fun kv => P kv.2) assigns -> P (value_dict assigns).
Hypothesis Hconst : forall name v, P v -> P (value_const name v).
Hypothesis Hreference : forall name, P (value_reference name).

Fixpoint value_induction (v : value) : P v :=
  match v with
  | value_NUM text => HNUM text
  | value_dict assigns =>
      Hdict assigns
        ((fix items (l : list (string * value)) : Forall (fun kv => P kv.2) l :=
            match l with
            | [] => @List.Forall_nil _ _
            | kv :: l' => @List.Forall_cons _ _ kv l' (value_induction kv.2) (items l')
            end) assigns)
  | value_const name v' => Hconst name v' (value_induction v')
  | value_reference name => Hreference name
  end.
End value_induction.

(** ** Induction on values *)

Section tree_induction.
Variable P : tree -> Prop.
Hypothesis HFloat : forall x, P (VFloat x).
Hypothesis HStr : forall s, P (VStr s).
Hypothesis HDict : forall d, Forall (fun kv => P kv.2) d -> P (VDict d).
Hypothesis HList : forall l, Forall P l -> P (VList l).
Hypothesis HConst : forall name value, P value -> P (VConst name value).
Hypothesis HRef : forall name, P (VRef name).

Fixpoint tree_induction (t : tree) : P t :=
  match t with
  | VFloat x => HFloat x
  | VStr s => HStr s
  | VDict d =>
      HDict d
        ((fix items (d : list (string * tree)) : Forall (fun kv => P kv.2) d :=
            match d with
            | [] => @List.Forall_nil _ _
            | kv :: d' => @List.Forall_cons _ _ kv d' (tree_induction kv.2) (items d')
            end) d)
  | VList l =>
      HList l
        ((fix items (l : list tree) : Forall P l :=
            match l with
            | [] => @List.Forall_nil _ _
            | v :: l' => @List.Forall_cons _ _ v l' (tree_induction v) (items l')
            end) l)
  | VConst name value => HConst name value (tree_induction value)
  | VRef name => HRef name
  end.
End tree_induction.

(** * Properties *)

(** ** The environment only grows *)

Lemma interp_dict_dom items :
  Forall (fun kv => forall env : gmap string tree, dom env ⊆ dom (interp kv.2 env).1) items ->
  forall (env : gmap string tree) output,
    dom env ⊆ dom (interp_dict interp items env output).1.
Proof.
  induction 1 as [|[k v] items Hv _ IH]; intros env output; simpl; [done|].
  specialize (Hv env). simpl in Hv.
  destruct (interp v env) as [env' [r|e]]; simpl in *; [|done].
  etrans; [exact Hv|apply IH].
Qed.

Lemma interp_list_dom items :
  Forall (fun v => forall env : gmap string tree, dom env ⊆ dom (interp v env).1) items ->
  forall (env : gmap string tree) output,
    dom env ⊆ dom (interp_list interp items env output).1.
Proof.
  induction 1 as [|v items Hv _ IH]; intros env output; simpl; [done|].
  specialize (Hv env).
  destruct (interp v env) as [env' [r|e]]; simpl in *; [|done].
  etrans; [exact Hv|apply IH].
Qed.

(** C9. No call of [interp] removes a name from the environment: every name
    bound in [env] before [interp t env] is bound in the environment the call
    leaves behind, whether the call returns or raises. *)
Theorem interp_env_grows (t : tree) (env : gmap string tree) :
  dom env ⊆ dom (interp t env).1.
Proof.
  revert env. induction t as [x|s|d IH|l IH|name value _|name] using tree_induction;
    intros env; simpl.
  - done.
  - done.
  - by apply interp_dict_dom.
  - by apply interp_list_dom.
  - apply dom_insert_subseteq.
  - by destruct (env !! name).
Qed.

(** ** Values without a constant declaration *)

Lemma interp_dict_frame items :
  Forall (fun kv => forall env : gmap string tree,
              has_const kv.2 = false -> (interp kv.2 env).1 = env) items ->
  existsb (fun kv => has_const kv.2) items = false ->
  forall (env : gmap string tree) output,
    (interp_dict interp items env output).1 = env.
Proof.
  induction 1 as [|[k v] items Hv _ IH]; intros Hc env output; simpl in *; [done|].
  apply orb_false_elim in Hc as [Hcv Hc].
  specialize (Hv env Hcv).
  destruct (interp v env) as [env' [r|e]]; simpl in *; subst; [|done].
  by apply IH.
Qed.

Lemma interp_list_frame items :
  Forall (fun v => forall env : gmap string tree,
              has_const v = false -> (interp v env).1 = env) items ->
  existsb has_const items = false ->
  forall (env : gmap string tree) output,
    (interp_list interp items env output).1 = env.
Proof.
  induction 1 as [|v items Hv _ IH]; intros Hc env output; simpl in *; [done|].
  apply orb_false_elim in Hc as [Hcv Hc].
  specialize (Hv env Hcv).
  destruct (interp v env) as [env' [r|e]]; simpl in *; subst; [|done].
  by apply IH.
Qed.

(** C10. Evaluating a value in which no constant declaration occurs leaves
    the environment exactly as it was: floats, strings, dictionaries, lists
    and references only read it. *)
Theorem interp_without_const_keeps_env (t : tree) (env : gmap string tree) :
  has_const t = false -> (interp t env).1 = env.
Proof.
  revert env. induction t as [x|s|d IH|l IH|name value _|name] using tree_induction;
    intros env Hc; simpl in *.
  - done.
  - done.
  - by apply interp_dict_frame.
  - by apply interp_list_frame.
  - discriminate.
  - by destruct (env !! name).
Qed.

Lemma interp_without_const_keeps_env_witness :
  has_const (VList [VFloat (number 5); VDict [("k", VRef "a")]; VRef "zz"]) = false /\
  (interp (VList [VFloat (number 5); VDict [("k", VRef "a")]; VRef "zz"])
          (<["a" := VFloat (number 5)]> ∅)).1 = <["a" := VFloat (number 5)]> ∅.
Proof.
  split; [reflexivity|].
  apply (interp_without_const_keeps_env
           (VList [VFloat (number 5); VDict [("k", VRef "a")]; VRef "zz"])
           (<["a" := VFloat (number 5)]> ∅)).
  reflexivity.
Defined.

(** ** The interpreter on lists and nested records *)

Lemma interp_list_app items1 items2 (env : gmap string tree) output :
  interp_list interp (items1 ++ items2) env output =
  match interp_list interp items1 env output with
  | (env', Return (VList output')) => interp_list interp items2 env' output'
  | r => r
  end.
Proof.
  revert env output. induction items1 as [|v items1 IH]; intros env output; simpl.
  - done.
  - destruct (interp v env) as [env' [r|e]]; [apply IH|done].
Qed.

Lemma interp_list_floats xs (env : gmap string tree) output :
  interp_list interp (map VFloat xs) env output =
  (env, Return (VList (output ++ map VFloat xs))).
Proof.
  revert output. induction xs as [|x xs IH]; intros output; simpl.
  - by rewrite app_nil_r.
  - rewrite IH. by rewrite <- app_assoc.
Qed.


(** ** The scenario of the specification *)

(** C1, as stated, fails: the program does not produce the announced
    sequence, in which the reference [$[a]] under key [e] is [20.0]. *)
Lemma scenario_not_as_announced : output scenario <> Some scenario_announced.
Proof. vm_compute. discriminate. Qed.

(** C1, amended.  The scenario parses, and evaluated from the empty
    environment it yields [[5.0, ["a", 5.0], {"A": 10.0, "B": {"Z": 10.0,
    "a": 20.0, "e": 5.0}, "C": 5.0}]]: the reference under key [e] is looked
    up in the environment, where [a] is [5.0]; the key [a] of the
    surrounding record plays no part.  The environment ends as [{a: 5.0}]. *)
Theorem scenario_evaluates :
  run scenario = Value (<["a" := VFloat (number 5)]> ∅) scenario_result.
Proof. vm_compute. reflexivity. Qed.

(** ** Constant declarations *)

Lemma interp_const name value (env : gmap string tree) :
  interp (VConst name value) env =
  (<[name := value]> env, Return (VList [VStr name; value])).
Proof. reflexivity. Qed.

(** C2, at a failing input.  In [set b = 1 set a = $[b]] the value of [a] is
    the reference [$[b]], whose evaluated form is [1.0]; [interp] stores and
    returns the tuple [("ref", "b")] itself. *)
Theorem const_value_is_not_evaluated :
  run "set b = 1 set a = $[b]" =
    Value (<["a" := VRef "b"]> (<["b" := VFloat (number 1)]> ∅))
          (VList [VList [VStr "b"; VFloat (number 1)];
                  VList [VStr "a"; VRef "b"]]) /\
  interp (VRef "b") (<["b" := VFloat (number 1)]> ∅) =
    (<["b" := VFloat (number 1)]> ∅, Return (VFloat (number 1))).
Proof. split; vm_compute; reflexivity. Qed.

(** C4, at a failing input.  [zz] is declared nowhere, and
    [set a = $[zz]] evaluates without a [KeyError]: the reference sits in
    the value of a declaration, which [interp] does not walk. *)
Theorem reference_in_const_is_not_looked_up :
  run "set a = $[zz]" =
    Value (<["a" := VRef "zz"]> ∅) (VList [VList [VStr "a"; VRef "zz"]]).
Proof. vm_compute. reflexivity. Qed.

Lemma interp_dict_undeclared x items :
  Forall (fun kv => forall env : gmap string tree,
              declares x kv.2 = false -> (interp kv.2 env).1 !! x = env !! x) items ->
  existsb (fun kv => declares x kv.2) items = false ->
  forall (env : gmap string tree) output,
    (interp_dict interp items env output).1 !! x = env !! x.
Proof.
  induction 1 as [|[k v] items Hv _ IH]; intros Hd env output; simpl in *; [done|].
  apply orb_false_elim in Hd as [Hdv Hd].
  specialize (Hv env Hdv).
  destruct (interp v env) as [env' [r|e]]; simpl in *; [|done].
  by rewrite IH.
Qed.

Lemma interp_list_undeclared x items :
  Forall (fun v => forall env : gmap string tree,
              declares x v = false -> (interp v env).1 !! x = env !! x) items ->
  existsb (declares x) items = false ->
  forall (env : gmap string tree) output,
    (interp_list interp items env output).1 !! x = env !! x.
Proof.
  induction 1 as [|v items Hv _ IH]; intros Hd env output; simpl in *; [done|].
  apply orb_false_elim in Hd as [Hdv Hd].
  specialize (Hv env Hdv).
  destruct (interp v env) as [env' [r|e]]; simpl in *; [|done].
  by rewrite IH.
Qed.

(** A value that declares no [x] leaves the binding of [x] as it was. *)
Lemma interp_undeclared x (t : tree) (env : gmap string tree) :
  declares x t = false -> (interp t env).1 !! x = env !! x.
Proof.
  revert env. induction t as [y|s|d IH|l IH|name value _|name] using tree_induction;
    intros env Hd; simpl in *.
  - done.
  - done.
  - by apply interp_dict_undeclared.
  - by apply interp_list_undeclared.
  - apply String.eqb_neq in Hd. by apply lookup_insert_ne.
  - by destruct (env !! name).
Qed.

Lemma interp_list_result items (env env' : gmap string tree) output v :
  interp_list interp items env output = (env', Return v) ->
  exists output', v = VList output'.
Proof.
  revert env output. induction items as [|t items IH]; intros env output; simpl.
  - intros [= _ <-]. eauto.
  - destruct (interp t env) as [env1 [r|e]]; [apply IH|done].
Qed.



(** ** Programs of numbers *)

Lemma transform_all_NUM l ts :
  forallb is_NUM l = true ->
  T.transform_all l = Some ts ->
  exists xs, ts = map VFloat xs /\ Forall2 literal_of l xs.
Proof.
  revert ts. induction l as [|v l IH]; intros ts Hnum Hts; simpl in *.
  - exists []. injection Hts as <-. split; [done|constructor].
  - apply andb_prop in Hnum as [Hv Hl].
    destruct v as [text| | |]; try discriminate. simpl in Hts.
    unfold T.NUM in Hts.
    destruct (float text) as [x|] eqn:Hx; simpl in Hts; [|discriminate].
    destruct (T.transform_all l) as [ts'|]; [|discriminate].
    injection Hts as <-.
    destruct (IH ts' Hl eq_refl) as (xs & -> & Hall).
    exists (x :: xs). split; [done|]. constructor; [|done]. by exists text.
Qed.

Lemma join_concat sep l : join sep l = String.concat sep l.
Proof.
  induction l as [|x l IH]; [done|]. destruct l as [|y l]; [done|].
  change (join sep (x :: y :: l)) with (x +:+ sep +:+ join sep (y :: l)).
  by rewrite IH.
Qed.

Lemma interp_floats xs (env : gmap string tree) :
  interp (VList (map VFloat xs)) env = (env, Return (VList (map VFloat xs))).
Proof. simpl. by rewrite interp_list_floats. Qed.

(** C6. A program that parses into numeric literals only evaluates to the
    list of its parsed numbers, unchanged and in order: the [i]-th entry is
    the [float] of the [i]-th literal.  The environment stays empty, and the
    text [json.dumps] writes is an opening bracket, the texts of these
    floats in order with a comma and a blank between two of them, and a
    closing bracket. *)
Theorem numeric_program_is_identity
    (input : string) (l : list value) (rest : string) (t : tree) :
  Lark.parse input = Lark.Parsed l rest ->
  forallb is_NUM l = true ->
  T.transform_start l = Some t ->
  exists xs : list spec_float,
    Forall2 literal_of l xs /\
    t = VList (map VFloat xs) /\
    run input = Value ∅ t /\
    forall float_repr : spec_float -> string,
      dumps float_repr t = "[" +:+ String.concat ", " (map float_repr xs) +:+ "]".
Proof.
  intros Hparse Hnum Ht. unfold T.transform_start in Ht.
  destruct (T.transform_all l) as [ts|] eqn:Hts; [|discriminate].
  injection Ht as <-.
  destruct (transform_all_NUM l ts Hnum Hts) as (xs & -> & Hall).
  exists xs. split; [done|]. split; [done|]. split.
  - unfold run, T.transform_start. rewrite Hparse, Hts. simpl.
    by rewrite interp_list_floats.
  - intros float_repr. simpl. by rewrite map_map, join_concat.
Qed.

Lemma numeric_program_is_identity_witness :
  exists xs : list spec_float,
    Forall2 literal_of [value_NUM "5"; value_NUM "50"] xs /\
    VList [VFloat (number 5); VFloat (number 50)] = VList (map VFloat xs) /\
    run "5 50" = Value ∅ (VList [VFloat (number 5); VFloat (number 50)]) /\
    forall float_repr : spec_float -> string,
      dumps float_repr (VList [VFloat (number 5); VFloat (number 50)]) =
      "[" +:+ String.concat ", " (map float_repr xs) +:+ "]".
Proof.
  apply (numeric_program_is_identity "5 50" [value_NUM "5"; value_NUM "50"] ""
           (VList [VFloat (number 5); VFloat (number 50)])).
  - vm_compute. reflexivity.
  - reflexivity.
  - vm_compute. reflexivity.
Defined.

(** ** Dictionaries *)

Section Dict.
Context {A : Type}.
Implicit Types (d : list (string * A)) (pairs : list (string * A)) (k : string) (v : A).

Lemma dict_unfold (pairs : list (string * A)) : dict pairs = dict_update [] pairs.
Proof. reflexivity. Qed.

Lemma dict_update_app d pairs1 pairs2 :
  dict_update d (pairs1 ++ pairs2) = dict_update (dict_update d pairs1) pairs2.
Proof. apply fold_left_app. Qed.

Lemma dict_setitem_fresh d k v :
  k ∉ map fst d -> dict_setitem d k v = d ++ [(k, v)].
Proof.
  induction d as [|[k' v'] d IH]; simpl; intros Hk; [done|].
  apply not_elem_of_cons in Hk as [Hne Hk].
  destruct (String.eqb_spec k' k) as [->|_]; [done|].
  by rewrite IH.
Qed.

Lemma dict_setitem_keys d k v :
  k ∈ map fst d -> map fst (dict_setitem d k v) = map fst d.
Proof.
  induction d as [|[k' v'] d IH]; simpl; intros Hk.
  - by apply elem_of_nil in Hk.
  - destruct (String.eqb_spec k' k) as [->|Hne]; [done|].
    apply elem_of_cons in Hk as [->|Hk]; [done|].
    simpl. by rewrite IH.
Qed.

Lemma dict_setitem_NoDup d k v :
  NoDup (map fst d) -> NoDup (map fst (dict_setitem d k v)).
Proof.
  intros Hd. destruct (decide (k ∈ map fst d)) as [Hk|Hk].
  - by rewrite dict_setitem_keys.
  - rewrite dict_setitem_fresh by done. rewrite map_app. simpl.
    apply NoDup_app. split; [done|]. split; [|apply NoDup_singleton].
    intros x Hx Hx'. apply list_elem_of_singleton in Hx'. by subst.
Qed.

Lemma dict_update_NoDup d pairs :
  NoDup (map fst d) -> NoDup (map fst (dict_update d pairs)).
Proof.
  revert d. induction pairs as [|[k v] pairs IH]; intros d Hd; simpl; [done|].
  apply IH. by apply dict_setitem_NoDup.
Qed.

Lemma dict_getitem_setitem d k v k' :
  dict_getitem (dict_setitem d k v) k' =
  if String.eqb k k' then Some v else dict_getitem d k'.
Proof.
  induction d as [|[k0 v0] d IH]; simpl.
  - done.
  - destruct (String.eqb_spec k0 k) as [->|Hne]; simpl.
    + by destruct (String.eqb k k').
    + rewrite IH. destruct (String.eqb_spec k0 k') as [->|Hne'].
      * destruct (String.eqb_spec k k') as [->|_]; [done|done].
      * done.
Qed.

(** The value of a key after an update is the one of its last pair. *)
Lemma dict_getitem_update d pairs k :
  dict_getitem (dict_update d pairs) k =
  match dict_getitem (rev pairs) k with
  | Some v => Some v
  | None => dict_getitem d k
  end.
Proof.
  revert d. induction pairs as [|[k0 v0] pairs IH] using rev_ind; intros d.
  - done.
  - rewrite dict_update_app, rev_app_distr. simpl.
    rewrite dict_getitem_setitem. destruct (String.eqb k0 k); [done|apply IH].
Qed.

Lemma differ_at_setitem k d d' k' v :
  differ_at k d d' -> differ_at k (dict_setitem d k' v) (dict_setitem d' k' v).
Proof.
  unfold differ_at.
  induction 1 as [|[a va] [b vb] d d' [Hab Hv] Hdd IH]; simpl in *.
  - by repeat constructor.
  - subst b. destruct (String.eqb a k'); constructor; done.
Qed.

Lemma differ_at_absent k d d' :
  differ_at k d d' -> k ∉ map fst d -> d = d'.
Proof.
  unfold differ_at.
  induction 1 as [|[a va] [b vb] d d' [Hab Hv] _ IH]; simpl in *; intros Hk; [done|].
  apply not_elem_of_cons in Hk as [Hne Hk]. subst b.
  rewrite Hv by done. by rewrite IH.
Qed.

Lemma differ_at_overwrite k d d' v :
  differ_at k d d' -> NoDup (map fst d) ->
  dict_setitem d k v = dict_setitem d' k v.
Proof.
  unfold differ_at.
  induction 1 as [|[a va] [b vb] d d' [Hab Hv] Hdd IH]; simpl in *; intros Hnd; [done|].
  apply NoDup_cons in Hnd as [Ha Hnd]. subst b.
  destruct (String.eqb_spec a k) as [->|Hne].
  - by rewrite (differ_at_absent k d d').
  - rewrite Hv by done. by rewrite IH.
Qed.

Lemma differ_at_update k d d' pairs :
  differ_at k d d' -> differ_at k (dict_update d pairs) (dict_update d' pairs).
Proof.
  revert d d'. induction pairs as [|[k0 v0] pairs IH]; intros d d' H; simpl; [done|].
  apply IH. by apply differ_at_setitem.
Qed.

(** A pair whose key comes again later in the list leaves no trace. *)
Lemma dict_earlier_duplicate pre k v1 v1' mid v2 post :
  dict (pre ++ (k, v1) :: mid ++ (k, v2) :: post) =
  dict (pre ++ (k, v1') :: mid ++ (k, v2) :: post).
Proof.
  rewrite !dict_unfold, !dict_update_app. simpl.
  rewrite !dict_update_app. simpl. f_equal.
  apply differ_at_overwrite.
  - apply differ_at_update.
    clear. induction (dict_update [] pre) as [|[a va] d IH]; simpl.
    + by repeat constructor.
    + unfold differ_at. destruct (String.eqb_spec a k) as [->|Hne]; constructor.
      * done.
      * apply Forall2_same_length_lookup. split; [done|]. intros; by simplify_eq.
      * done.
      * apply IH.
  - apply dict_update_NoDup, dict_setitem_NoDup, dict_update_NoDup. constructor.
Qed.

End Dict.

(** ** Records with a repeated key *)

Lemma interp_dict_keys items (env env' : gmap string tree) output r :
  NoDup (map fst output ++ map fst items) ->
  interp_dict interp items env output = (env', Return r) ->
  exists out, r = VDict out /\ map fst out = map fst output ++ map fst items.
Proof.
  revert env output. induction items as [|[k v] items IH]; intros env output Hnd; simpl.
  - intros [= _ <-]. exists output. by rewrite app_nil_r.
  - destruct (interp v env) as [env1 [r1|e]]; [|done].
    intros Hrest.
    assert (Hk : k ∉ map fst output).
    { apply NoDup_app in Hnd as (_ & Hdisj & _).
      intros Hin. apply (Hdisj k Hin). left. }
    rewrite dict_setitem_fresh in Hrest by done.
    apply IH in Hrest.
    + destruct Hrest as (out & -> & Hkeys). exists out. split; [done|].
      rewrite Hkeys, map_app. simpl. by rewrite <- app_assoc.
    + rewrite map_app. simpl. by rewrite <- app_assoc.
Qed.

(** C3, as stated, fails.  In [{ A -> set x = 1. A -> 2. }] the
    transformer keeps a single entry for [A], and the declaration of [x] in
    the first entry is never evaluated: the environment stays empty and a
    later [$[x]] raises.  (With two different keys the declaration is
    evaluated and [$[x]] is [1.0].) *)
Lemma earlier_duplicate_is_dropped :
  T.transform (value_dict [("A", value_const "x" (value_NUM "1"));
                           ("A", value_NUM "2")]) =
    Some (VDict [("A", VFloat (number 2))]) /\
  run "{ A -> set x = 1. A -> 2. }" =
    Value ∅ (VList [VDict [("A", VFloat (number 2))]]) /\
  run "{ A -> set x = 1. A -> 2. } $[x]" = InterpError ∅ (KeyError "x") /\
  output "{ A -> set x = 1. B -> 2. } $[x]" =
    Some (VList [VDict [("A", VList [VStr "x"; VFloat (number 1)]);
                        ("B", VFloat (number 2))];
                 VFloat (number 1)]).
Proof. repeat split; vm_compute; reflexivity. Qed.

Lemma interp_dict_entries items (env env' : gmap string tree) output r :
  NoDup (map fst output ++ map fst items) ->
  interp_dict interp items env output = (env', Return r) ->
  exists out, r = VDict (output ++ out) /\ evaluated_in_order env items env' out.
Proof.
  revert env output. induction items as [|[k v] items IH]; intros env output Hnd; simpl.
  - intros [= <- <-]. exists []. rewrite app_nil_r. split; [done|constructor].
  - destruct (interp v env) as [env1 [r1|e]] eqn:Hv; [|done].
    intros Hrest.
    assert (Hk : k ∉ map fst output).
    { apply NoDup_app in Hnd as (_ & Hdisj & _).
      intros Hin. apply (Hdisj k Hin). left. }
    rewrite dict_setitem_fresh in Hrest by done.
    apply IH in Hrest.
    + destruct Hrest as (out & -> & Hout). exists ((k, r1) :: out). split.
      * by rewrite <- app_assoc.
      * by econstructor.
    + rewrite map_app. simpl. by rewrite <- app_assoc.
Qed.

(** C3, amended.  When two entries of a record have the same key, the
    transformer merges them before evaluation: the dictionary it builds has
    each key once, with the value of the key's last entry, and does not
    depend on the value of the earlier entry, which is therefore never
    evaluated.  Evaluation of the record returns a dictionary with the same
    keys, each with one evaluated value: the entries of the merged
    dictionary are evaluated in its order, each in the environment the one
    before leaves behind, and the environment of the last one is the one the
    record leaves. *)
Theorem duplicate_keys_are_merged
    (pre mid post : list (string * tree)) (k : string) (v1 v2 : tree) :
  let pairs := pre ++ (k, v1) :: mid ++ (k, v2) :: post in
  (forall v1', T.dict pairs = T.dict (pre ++ (k, v1') :: mid ++ (k, v2) :: post)) /\
  NoDup (map fst (dict pairs)) /\
  (forall key, dict_getitem (dict pairs) key = dict_getitem (rev pairs) key) /\
  (forall (env env' : gmap string tree) r,
      interp (T.dict pairs) env = (env', Return r) ->
      exists out, r = VDict out /\ map fst out = map fst (dict pairs) /\
                  evaluated_in_order env (dict pairs) env' out).
Proof.
  intros pairs. repeat split.
  - intros v1'. unfold T.dict. f_equal. apply dict_earlier_duplicate.
  - rewrite dict_unfold. apply dict_update_NoDup. constructor.
  - intros key. rewrite dict_unfold, dict_getitem_update.
    by destruct (dict_getitem (rev pairs) key).
  - intros env env' r Hr. simpl in Hr.
    assert (Hnd : NoDup (map fst ([] : list (string * tree)) ++ map fst (dict pairs))).
    { simpl. rewrite dict_unfold. apply dict_update_NoDup. constructor. }
    destruct (interp_dict_entries _ _ _ _ _ Hnd Hr) as (out' & -> & Hout').
    apply interp_dict_keys in Hr as (out & [= <-] & Hkeys); [|done].
    by exists out'.
Qed.

Lemma duplicate_keys_are_merged_witness :
  exists out,
    VDict [("A", VFloat (number 7)); ("B", VFloat (number 7))] = VDict out /\
    map fst out = map fst (dict [("A", VConst "x" (VFloat (number 1)));
                                 ("A", VRef "y"); ("B", VRef "y")]) /\
    evaluated_in_order (<["y" := VFloat (number 7)]> ∅)
      (dict [("A", VConst "x" (VFloat (number 1))); ("A", VRef "y"); ("B", VRef "y")])
      (<["y" := VFloat (number 7)]> ∅) out.
Proof.
  destruct (duplicate_keys_are_merged [] [] [("B", VRef "y")] "A"
              (VConst "x" (VFloat (number 1))) (VRef "y"))
    as (_ & _ & _ & H).
  apply (H (<["y" := VFloat (number 7)]> ∅) (<["y" := VFloat (number 7)]> ∅)).
  vm_compute. reflexivity.
Defined.

(** ** Records are never empty *)

Lemma parse_value_S n s :
  Lark.parse_value (S n) s =
  match match_ NUM (Lark.skip s) with
  | Some (text, rest) => Lark.Parsed (value_NUM text) rest
  | None =>
  match Lark.keyword "{" (Lark.skip s) with
  | Some rest =>
      Lark.bind (Lark.parse_assigns n rest)
                (fun assigns rest => Lark.Parsed (value_dict assigns) rest)
  | None =>
  match Lark.keyword "set" (Lark.skip s) with
  | Some rest =>
      Lark.bind (Lark.token NAME rest) (fun name rest =>
      Lark.bind (Lark.expect "=" rest) (fun _ rest =>
      Lark.bind (Lark.parse_value n rest) (fun v rest =>
      Lark.Parsed (value_const name v) rest)))
  | None =>
  match Lark.keyword "$[" (Lark.skip s) with
  | Some rest =>
      Lark.bind (Lark.token NAME rest) (fun name rest =>
      Lark.bind (Lark.expect "]" rest) (fun _ rest =>
      Lark.Parsed (value_reference name) rest))
  | None => Lark.UnexpectedInput
  end end end end.
Proof. reflexivity. Qed.

Lemma parse_assigns_S n s :
  Lark.parse_assigns (S n) s =
  Lark.bind (Lark.token NAME s) (fun name rest =>
  Lark.bind (Lark.expect "->" rest) (fun _ rest =>
  Lark.bind (Lark.parse_value n rest) (fun v rest =>
  Lark.bind (Lark.expect "." rest) (fun _ rest =>
  match Lark.keyword "}" (Lark.skip rest) with
  | Some rest => Lark.Parsed [(name, v)] rest
  | None =>
      Lark.bind (Lark.parse_assigns n rest) (fun assigns rest =>
      Lark.Parsed ((name, v) :: assigns) rest)
  end)))).
Proof. reflexivity. Qed.

Lemma bind_Parsed {A B : Type} (m : Lark.outcome A) (f : A -> string -> Lark.outcome B) b rest :
  Lark.bind m f = Lark.Parsed b rest ->
  exists a rest', m = Lark.Parsed a rest' /\ f a rest' = Lark.Parsed b rest.
Proof. destruct m; simpl; intros H; try discriminate. eauto. Qed.

Ltac bind_inv H :=
  let a := fresh "a" in
  let r := fresh "rest" in
  let Hm := fresh "Hm" in
  apply bind_Parsed in H as (a & r & Hm & H).

Lemma parse_no_empty_dict fuel :
  (forall s v rest,
      Lark.parse_value fuel s = Lark.Parsed v rest -> no_empty_dict v = true) /\
  (forall s l rest,
      Lark.parse_assigns fuel s = Lark.Parsed l rest ->
      l <> [] /\ forallb (fun kv => no_empty_dict kv.2) l = true).
Proof.
  induction fuel as [|n [IHv IHa]]; (split; [intros s v rest H|intros s l rest H]);
    try discriminate.
  - rewrite parse_value_S in H.
    destruct (match_ NUM (Lark.skip s)) as [[text r]|].
    { by injection H as <- _. }
    destruct (Lark.keyword "{" (Lark.skip s)) as [r|].
    { bind_inv H. injection H as <- _.
      apply IHa in Hm as [Hne Hall]. simpl. by destruct a. }
    destruct (Lark.keyword "set" (Lark.skip s)) as [r|].
    { do 3 bind_inv H. injection H as <- _. simpl. eauto. }
    destruct (Lark.keyword "$[" (Lark.skip s)) as [r|]; [|done].
    do 2 bind_inv H. by injection H as <- _.
  - rewrite parse_assigns_S in H. do 4 bind_inv H.
    apply IHv in Hm1.
    destruct (Lark.keyword "}" (Lark.skip rest3)) as [r|].
    + injection H as <- _. simpl. by rewrite Hm1.
    + bind_inv H. injection H as <- _. apply IHa in Hm3 as [_ Hall].
      simpl. by rewrite Hm1, Hall.
Qed.

Lemma parse_start_no_empty_dict fuel s l rest :
  Lark.parse_start fuel s = Lark.Parsed l rest ->
  forallb no_empty_dict l = true.
Proof.
  revert s l rest. induction fuel as [|n IH]; intros s l rest H; [done|].
  change (Lark.parse_start (S n) s) with
    (Lark.bind (Lark.parse_value (S n) s) (fun v rest =>
       match Lark.skip rest with
       | EmptyString => Lark.Parsed [v] EmptyString
       | _ => Lark.bind (Lark.parse_start n rest) (fun vs rest => Lark.Parsed (v :: vs) rest)
       end)) in H.
  bind_inv H. apply (proj1 (parse_no_empty_dict _)) in Hm.
  destruct (Lark.skip rest0).
  - injection H as <- _. simpl. by rewrite Hm.
  - bind_inv H. injection H as <- _. apply IH in Hm0. simpl. by rewrite Hm, Hm0.
Qed.

Lemma skip_brace s : Lark.skip (String "{" s) = String "{" s.
Proof. reflexivity. Qed.

(** C7. The text [{}] is rejected.  More generally a [{] directly followed,
    blanks and comments apart, by [}] is rejected wherever a value is
    expected, and no accepted text has a record without entries in its parse
    tree. *)
Theorem empty_record_is_rejected :
  Lark.parse "{}" = Lark.UnexpectedInput /\
  (forall (n : nat) (s rest : string),
      Lark.skip s = String "}" rest ->
      Lark.parse_value (S (S n)) (String "{" s) = Lark.UnexpectedInput) /\
  (forall (input : string) (l : list value) (rest : string),
      Lark.parse input = Lark.Parsed l rest ->
      forallb no_empty_dict l = true).
Proof.
  split; [reflexivity|]. split.
  - intros n s rest Hs.
    rewrite parse_value_S, skip_brace.
    change (match_ NUM (String "{" s)) with (@None (string * string)).
    change (Lark.keyword "{" (String "{" s)) with (Some s).
    cbv beta iota. rewrite parse_assigns_S. unfold Lark.token. by rewrite Hs.
  - intros input l rest. apply parse_start_no_empty_dict.
Qed.

Lemma empty_record_is_rejected_witness :
  Lark.parse_value 2 "{ }" = Lark.UnexpectedInput /\
  forallb no_empty_dict [value_dict [("A", value_NUM "1")]] = true.
Proof.
  destruct empty_record_is_rejected as (_ & H1 & H2). split.
  - apply (H1 0%nat " }" ""). reflexivity.
  - apply (H2 "{ A -> 1. }" [value_dict [("A", value_NUM "1")]] "").
    vm_compute. reflexivity.
Defined.

(** ** Patterns and their languages *)

Lemma app_cons c s t : String c s +:+ t = String c (s +:+ t).
Proof. reflexivity. Qed.

Lemma app_nil_l t : EmptyString +:+ t = t.
Proof. reflexivity. Qed.

Lemma app_nil_r s : s +:+ EmptyString = s.
Proof. induction s as [|c s IH]; [done|]. by rewrite app_cons, IH. Qed.

Lemma app_assoc s t u : s +:+ (t +:+ u) = (s +:+ t) +:+ u.
Proof. induction s as [|c s IH]; [done|]. by rewrite !app_cons, IH. Qed.

Lemma app_eq_nil s t : s +:+ t = EmptyString -> s = EmptyString /\ t = EmptyString.
Proof. destruct s; [done|]. rewrite app_cons. discriminate. Qed.

Section Exec_lang.
Context {A : Type}.
Implicit Types (k : string -> string -> option A).

Lemma star_is_Some p acc s k :
  is_Some (star p acc s k) <->
  exists s1 s2, s = s1 +:+ s2 /\ all p s1 = true /\ is_Some (k (acc +:+ s1) s2).
Proof.
  revert acc. induction s as [|c s IH]; intros acc; simpl.
  - split.
    + intros H. exists EmptyString, EmptyString. by rewrite !app_nil_r.
    + intros (s1 & s2 & Hs & _ & H). symmetry in Hs.
      apply app_eq_nil in Hs as [-> ->]. by rewrite app_nil_r in H.
  - destruct (p c) eqn:Hc.
    + split.
      * intros H.
        destruct (star p (acc +:+ String c EmptyString) s k) as [a|] eqn:Hs.
        -- destruct (proj1 (IH (acc +:+ String c EmptyString)))
             as (s1 & s2 & -> & Hall & Hk); [by rewrite Hs|].
           exists (String c s1), s2. simpl. rewrite Hc, Hall.
           by rewrite <- app_assoc in Hk.
        -- exists EmptyString, (String c s). by rewrite app_nil_r, app_nil_l.
      * intros (s1 & s2 & Hs & Hall & Hk). destruct s1 as [|c1 s1].
        -- rewrite app_nil_l in Hs. subst s2. rewrite app_nil_r in Hk.
           by destruct (star p (acc +:+ String c EmptyString) s k).
        -- rewrite app_cons in Hs. injection Hs as <- ->. simpl in Hall.
           apply andb_prop in Hall as [_ Hall].
           destruct (proj2 (IH (acc +:+ String c EmptyString))) as [a ->]; [|done].
           exists s1, s2. by rewrite <- app_assoc.
    + split.
      * intros H. exists EmptyString, (String c s). by rewrite app_nil_r, app_nil_l.
      * intros (s1 & s2 & Hs & Hall & Hk). destruct s1 as [|c1 s1].
        -- rewrite app_nil_l in Hs. subst s2. by rewrite app_nil_r in Hk.
        -- rewrite app_cons in Hs. injection Hs as <- ->. simpl in Hall.
           by rewrite Hc in Hall.
Qed.

End Exec_lang.

Section Exec_lang_all.
Context {A : Type}.
Implicit Types (k : string -> string -> option A).

(** The matcher finds a match exactly when the text starts with a text of
    the pattern's language after which the rest of the pattern matches. *)
Lemma exec_is_Some r acc s k :
  is_Some (exec r acc s k) <->
  exists s1 s2, s = s1 +:+ s2 /\ lang r s1 /\ is_Some (k (acc +:+ s1) s2).
Proof.
  revert acc s k. induction r as [p|r1 IH1 r2 IH2|r1 IH1 r2 IH2|r1 IH1|p|p];
    intros acc s k; simpl.
  - destruct s as [|c s].
    + split; [by intros []|]. intros (s1 & s2 & Hs & Hl & _).
      inversion Hl; subst. by rewrite app_cons in Hs.
    + destruct (p c) eqn:Hc.
      * split.
        -- intros H. exists (String c EmptyString), s.
           split; [done|]. split; [by constructor|done].
        -- intros (s1 & s2 & Hs & Hl & Hk). inversion Hl; subst.
           rewrite app_cons, app_nil_l in Hs. by injection Hs as <- <-.
      * split; [by intros []|]. intros (s1 & s2 & Hs & Hl & _).
        inversion Hl; subst. rewrite app_cons in Hs. injection Hs as <- _. congruence.
  - rewrite IH1. split.
    + intros (s1 & s2 & -> & Hl1 & H). apply IH2 in H as (s3 & s4 & -> & Hl2 & H).
      exists (s1 +:+ s3), s4. rewrite !app_assoc.
      split; [done|]. split; [by constructor|done].
    + intros (s1 & s2 & -> & Hl & H).
      inversion Hl as [|? ? t1 t2 Hl1 Hl2| | | | | |]; subst.
      exists t1, (t2 +:+ s2). rewrite app_assoc. split; [done|]. split; [done|].
      apply IH2. exists t2, s2. by rewrite <- app_assoc.
  - split.
    + intros H. destruct (exec r1 acc s k) as [a|] eqn:H1.
      * destruct (proj1 (IH1 acc s k)) as (s1 & s2 & ? & ? & ?); [by rewrite H1|].
        exists s1, s2. split; [done|]. split; [by apply lang_Alt_l|done].
      * apply IH2 in H as (s1 & s2 & ? & ? & ?). exists s1, s2.
        split; [done|]. split; [by apply lang_Alt_r|done].
    + intros (s1 & s2 & Hs & Hl & H). inversion Hl; subst.
      * destruct (proj2 (IH1 acc (s1 +:+ s2) k)) as [a ->]; [by exists s1, s2|done].
      * destruct (exec r1 acc (s1 +:+ s2) k); [done|]. apply IH2. by exists s1, s2.
  - split.
    + intros H. destruct (exec r1 acc s k) as [a|] eqn:H1.
      * destruct (proj1 (IH1 acc s k)) as (s1 & s2 & ? & ? & ?); [by rewrite H1|].
        exists s1, s2. split; [done|]. split; [by apply lang_Opt_some|done].
      * exists EmptyString, s. rewrite app_nil_r, app_nil_l.
        split; [done|]. split; [constructor|done].
    + intros (s1 & s2 & Hs & Hl & H). inversion Hl; subst.
      * rewrite app_nil_r in H. rewrite app_nil_l. by destruct (exec r1 acc s2 k).
      * destruct (proj2 (IH1 acc (s1 +:+ s2) k)) as [a ->]; [by exists s1, s2|done].
  - rewrite star_is_Some. split.
    + intros (s1 & s2 & ? & ? & ?). exists s1, s2.
      split; [done|]. split; [by constructor|done].
    + intros (s1 & s2 & ? & Hl & ?). inversion Hl; subst. by exists s1, s2.
  - destruct s as [|c s].
    + split; [by intros []|]. intros (s1 & s2 & Hs & Hl & _).
      inversion Hl; subst. by rewrite app_cons in Hs.
    + destruct (p c) eqn:Hc.
      * rewrite star_is_Some. split.
        -- intros (s1 & s2 & -> & Hall & H). exists (String c s1), s2.
           rewrite <- app_assoc in H.
           split; [done|]. split; [by constructor|done].
        -- intros (s1 & s2 & Hs & Hl & H). inversion Hl as [| | | | | | |? ? t Hc' Hall]; subst.
           rewrite app_cons in Hs. injection Hs as <- ->.
           exists t, s2. rewrite <- app_assoc. by repeat split.
      * split; [by intros []|]. intros (s1 & s2 & Hs & Hl & _).
        inversion Hl; subst. rewrite app_cons in Hs. injection Hs as <- _. congruence.
Qed.

(** What the matcher returns is what the rest of the pattern returned after
    a text of the pattern's language. *)
Lemma star_sound p acc s k a :
  star p acc s k = Some a ->
  exists s1 s2, s = s1 +:+ s2 /\ all p s1 = true /\ k (acc +:+ s1) s2 = Some a.
Proof.
  revert acc. induction s as [|c s IH]; intros acc; simpl.
  - intros H. exists EmptyString, EmptyString. by rewrite !app_nil_r.
  - destruct (p c) eqn:Hc.
    + destruct (star p (acc +:+ String c EmptyString) s k) as [a'|] eqn:Hs.
      * intros [= ->]. apply IH in Hs as (s1 & s2 & -> & Hall & Hk).
        exists (String c s1), s2. simpl. rewrite Hc, Hall.
        by rewrite <- app_assoc in Hk.
      * intros H. exists EmptyString, (String c s). by rewrite app_nil_r, app_nil_l.
    + intros H. exists EmptyString, (String c s). by rewrite app_nil_r, app_nil_l.
Qed.

Lemma exec_sound r acc s k a :
  exec r acc s k = Some a ->
  exists s1 s2, s = s1 +:+ s2 /\ lang r s1 /\ k (acc +:+ s1) s2 = Some a.
Proof.
  revert acc s k. induction r as [p|r1 IH1 r2 IH2|r1 IH1 r2 IH2|r1 IH1|p|p];
    intros acc s k; simpl.
  - destruct s as [|c s]; [done|]. destruct (p c) eqn:Hc; [|done].
    intros H. exists (String c EmptyString), s.
    split; [done|]. split; [by constructor|done].
  - intros H. apply IH1 in H as (s1 & s2 & -> & Hl1 & H).
    apply IH2 in H as (s3 & s4 & -> & Hl2 & H).
    exists (s1 +:+ s3), s4. rewrite !app_assoc.
    split; [done|]. split; [by constructor|done].
  - destruct (exec r1 acc s k) as [a'|] eqn:H1.
    + intros [= ->]. apply IH1 in H1 as (s1 & s2 & ? & ? & ?). exists s1, s2.
      split; [done|]. split; [by apply lang_Alt_l|done].
    + intros H. apply IH2 in H as (s1 & s2 & ? & ? & ?). exists s1, s2.
      split; [done|]. split; [by apply lang_Alt_r|done].
  - destruct (exec r1 acc s k) as [a'|] eqn:H1.
    + intros [= ->]. apply IH1 in H1 as (s1 & s2 & ? & ? & ?). exists s1, s2.
      split; [done|]. split; [by apply lang_Opt_some|done].
    + intros H. exists EmptyString, s. rewrite app_nil_r, app_nil_l.
      split; [done|]. split; [constructor|done].
  - intros H. apply star_sound in H as (s1 & s2 & ? & ? & ?). exists s1, s2.
    split; [done|]. split; [by constructor|done].
  - destruct s as [|c s]; [done|]. destruct (p c) eqn:Hc; [|done].
    intros H. apply star_sound in H as (s1 & s2 & -> & Hall & H).
    exists (String c s1), s2. rewrite <- app_assoc in H.
    split; [done|]. split; [by constructor|done].
Qed.

End Exec_lang_all.

(** A match of [pattern.match] is a prefix of the text and belongs to the
    language of the pattern. *)
Lemma match_sound r s tok rest :
  match_ r s = Some (tok, rest) -> s = tok +:+ rest /\ lang r tok.
Proof.
  unfold match_. intros H. apply exec_sound in H as (s1 & s2 & -> & Hl & H).
  rewrite app_nil_l in H. by injection H as <- <-.
Qed.

(** [fullmatch] decides the language of the pattern. *)
Lemma fullmatch_lang r s : fullmatch r s = true <-> lang r s.
Proof.
  unfold fullmatch.
  pose proof (exec_is_Some r EmptyString s
    (fun _ rest => match rest with EmptyString => Some tt | _ => None end)) as H.
  split.
  - intros Hm. destruct (exec r EmptyString s _) as [[]|]; [|done].
    destruct (proj1 H) as (s1 & s2 & -> & Hl & Hk); [done|].
    destruct s2; [|by destruct Hk]. by rewrite app_nil_r.
  - intros Hl. destruct (proj2 H) as [[] ->]; [|done].
    exists s, EmptyString. by rewrite app_nil_r.
Qed.

(** ** The shape of a number *)

Lemma lang_Seq_inv r1 r2 s :
  lang (Seq r1 r2) s -> exists s1 s2, s = s1 +:+ s2 /\ lang r1 s1 /\ lang r2 s2.
Proof. inversion 1; subst; eauto. Qed.

Lemma lang_Alt_inv r1 r2 s : lang (Alt r1 r2) s -> lang r1 s \/ lang r2 s.
Proof. inversion 1; subst; eauto. Qed.

Lemma lang_Opt_inv r s : lang (Opt r) s -> s = EmptyString \/ lang r s.
Proof. inversion 1; subst; eauto. Qed.

Lemma lang_Seq_middle x a b y s :
  (forall t, lang a t -> lang b t) ->
  lang (Seq x (Seq a y)) s -> lang (Seq x (Seq b y)) s.
Proof.
  intros Hab H.
  apply lang_Seq_inv in H as (s1 & s2 & -> & Hx & H).
  apply lang_Seq_inv in H as (s3 & s4 & -> & Ha & Hy).
  by repeat constructor; auto.
Qed.

Lemma NUM_body_shape s :
  lang (Alt (Plus digit)
            (Alt (Seq (Plus digit) (Seq (Chr (lit ".")) (Star digit))) DOT_DIGITS)) s <->
  lang (Alt (Seq (Plus digit) (Opt (Seq (Chr (lit ".")) (Star digit)))) DOT_DIGITS) s.
Proof.
  split; intros H.
  - apply lang_Alt_inv in H as [H|H].
    + apply lang_Alt_l. rewrite <- (app_nil_r s). constructor; [done|constructor].
    + apply lang_Alt_inv in H as [H|H]; [|by apply lang_Alt_r].
      apply lang_Seq_inv in H as (s1 & s2 & -> & H1 & H2).
      apply lang_Alt_l. constructor; [done|]. by apply lang_Opt_some.
  - apply lang_Alt_inv in H as [H|H]; [|by apply lang_Alt_r, lang_Alt_r].
    apply lang_Seq_inv in H as (s1 & s2 & -> & H1 & H2).
    apply lang_Opt_inv in H2 as [->|H2].
    + rewrite app_nil_r. by apply lang_Alt_l.
    + apply lang_Alt_r, lang_Alt_l. by constructor.
Qed.

(** The language of the pattern, apart from how the lexer applies it: the
    text [5.], a trailing dot without fractional digits, is in it, and has
    none of the announced shapes. *)
Lemma NUM_matches_trailing_dot :
  fullmatch NUM "5." = true /\ ~ lang NUMBER_announced "5.".
Proof.
  split; [reflexivity|].
  intros H. apply fullmatch_lang in H. vm_compute in H. discriminate.
Qed.

(** The texts the pattern of [NUM] describes are exactly: an optional
    leading [-]; then digits, optionally followed by a dot and any number of
    digits (none included, as in [5.]), or a dot followed by digits; then an
    optional exponent [[eE][+-]?digits].  Every token the lexer cuts from the
    head of a text with this pattern has such a shape. *)
Lemma NUM_language (s : string) :
  (fullmatch NUM s = true <-> lang NUMBER_shape s) /\
  (forall tok rest : string,
      match_ NUM s = Some (tok, rest) -> s = tok +:+ rest /\ lang NUMBER_shape tok).
Proof.
  assert (Hshape : forall t, lang NUM t <-> lang NUMBER_shape t).
  { intros t. unfold NUM, NUMBER_shape, MINUS, EXPONENT.
    split; apply lang_Seq_middle; intros u; apply NUM_body_shape. }
  split.
  - by rewrite fullmatch_lang.
  - intros tok rest H. apply match_sound in H as [-> H]. by apply Hshape in H.
Qed.

Lemma NUM_language_witness :
  lang NUMBER_shape "5." /\
  ("-12e+3 }" = "-12e+3" +:+ " }" /\ lang NUMBER_shape "-12e+3").
Proof.
  split.
  - apply (proj1 (proj1 (NUM_language "5."))). reflexivity.
  - apply (proj2 (NUM_language "-12e+3 }") "-12e+3" " }"). reflexivity.
Defined.

(** How the lexer applies the pattern: [match] returns the first
    alternative that succeeds, here [\d+], so that a text with an integer
    part is cut before the dot. *)
Lemma NUM_prefix_match :
  match_ NUM "5.5" = Some ("5", ".5") /\
  match_ NUM "5." = Some ("5", ".") /\
  match_ NUM ".5" = Some (".5", "") /\
  Lark.parse "5.5" = Lark.Parsed [value_NUM "5"; value_NUM ".5"] "" /\
  Lark.parse "{ A -> 5.5. }" = Lark.UnexpectedInput /\
  Lark.parse "{ A -> 10. }" = Lark.Parsed [value_dict [("A", value_NUM "10")]] "".
Proof. repeat split; vm_compute; reflexivity. Qed.

(** ** The pattern of [NUM] under [match]

    With [match] the first alternative, [\d+], hides the second one,
    [\d+\.\d*]: whenever the second could start, the first succeeds. *)

Section Exec_first.
Context {A : Type}.
Implicit Types (k : string -> string -> option A).

Lemma star_ext p acc s k k' :
  (forall a t, k a t = k' a t) -> star p acc s k = star p acc s k'.
Proof.
  intros Hk. revert acc. induction s as [|c s IH]; intros acc; simpl; [done|].
  destruct (p c); [|done]. by rewrite IH, Hk.
Qed.

Lemma exec_ext r acc s k k' :
  (forall a t, k a t = k' a t) -> exec r acc s k = exec r acc s k'.
Proof.
  revert acc s k k'. induction r as [p|r1 IH1 r2 IH2|r1 IH1 r2 IH2|r1 IH1|p|p];
    intros acc s k k' Hk; simpl.
  - destruct s as [|c s]; [done|]. by destruct (p c).
  - apply IH1. intros a t. by apply IH2.
  - by rewrite (IH1 acc s k k'), (IH2 acc s k k').
  - by rewrite (IH1 acc s k k'), Hk.
  - by apply star_ext.
  - destruct s as [|c s]; [done|]. destruct (p c); [|done]. by apply star_ext.
Qed.

Lemma star_total p acc s k :
  (forall a t, is_Some (k a t)) -> is_Some (star p acc s k).
Proof.
  intros Hk. revert acc. induction s as [|c s IH]; intros acc; simpl; [done|].
  destruct (p c); [|done].
  by destruct (star p (acc +:+ String c EmptyString) s k).
Qed.

Lemma Plus_first p r acc s k :
  (forall a t, is_Some (k a t)) ->
  exec (Plus p) acc s k = None ->
  exec (Seq (Plus p) r) acc s k = None.
Proof.
  intros Hk. simpl. destruct s as [|c s]; [done|]. destruct (p c); [|done].
  intros Hnone.
  destruct (star_total p (acc +:+ String c EmptyString) s k Hk) as [a Ha]. congruence.
Qed.

Lemma Opt_total r acc s k :
  (forall a t, is_Some (k a t)) -> is_Some (exec (Opt r) acc s k).
Proof. intros Hk. simpl. by destruct (exec r acc s k). Qed.

End Exec_first.

(** The lexer cuts the same token as if the pattern had no second
    alternative: digits with an exponent, or a dot, digits and an exponent. *)
Lemma NUM_second_alternative_is_dead (s : string) :
  match_ NUM s = match_ NUM_as_lexed s.
Proof.
  unfold match_, NUM, NUM_as_lexed, MINUS, EXPONENT, DOT_DIGITS.
  change (exec (Seq ?a (Seq ?b ?c)) EmptyString s ?k)
    with (exec a EmptyString s (fun acc' s' => exec (Seq b c) acc' s' k)).
  apply exec_ext. intros acc t.
  change (exec (Seq ?b ?c) acc t ?k) with (exec b acc t (fun acc' s' => exec c acc' s' k)).
  set (k := fun acc' s' => exec (Opt _) acc' s' _).
  assert (Hk : forall a u, is_Some (k a u)) by (intros a u; by apply Opt_total).
  change (exec (Alt ?a ?b) acc t k)
    with (match exec a acc t k with Some x => Some x | None => exec b acc t k end).
  destruct (exec (Plus digit) acc t k) eqn:Hplus; [done|].
  change (exec (Alt ?a ?b) acc t k)
    with (match exec a acc t k with Some x => Some x | None => exec b acc t k end).
  by rewrite (Plus_first _ _ _ _ _ Hk Hplus).
Qed.

(** ** The input of the program *)

(** The program run on its own input gives [[5.0, 50.0, ["a", 5.0], {"A":
    10.0, "B": {"Z": 10.0, "a": 20.0, "r": 30.0, "e": 5.0}, "C": 5.0},
    ["qq", 465.0], ["tt", 555.0]]]. *)
Lemma input_evaluates :
  output input =
    Some (VList [VFloat (number 5); VFloat (number 50);
                 VList [VStr "a"; VFloat (number 5)];
                 VDict [("A", VFloat (number 10));
                        ("B", VDict [("Z", VFloat (number 10));
                                     ("a", VFloat (number 20));
                                     ("r", VFloat (number 30));
                                     ("e", VFloat (number 5))]);
                        ("C", VFloat (number 5))];
                 VList [VStr "qq"; VFloat (number 465)];
                 VList [VStr "tt"; VFloat (number 555)]]).
Proof. vm_compute. reflexivity. Qed.

(** ** References that are reached *)

Lemma interp_dict_by_names items :
  Forall (fun kv => forall env, outcome_by_names kv.2 env) items ->
  forall (env : gmap string tree) output,
    match bound_after_dict bound_after items (dom env) with
    | Some names =>
        dom (interp_dict interp items env output).1 = names /\
        exists v, (interp_dict interp items env output).2 = Return v
    | None =>
        exists name, (interp_dict interp items env output).2 = Raise (KeyError name) /\
                     name ∉ dom (interp_dict interp items env output).1
    end.
Proof.
  induction 1 as [|[k v] items Hv _ IH]; intros env output; simpl; [eauto|].
  specialize (Hv env). unfold outcome_by_names in Hv. simpl in Hv.
  destruct (bound_after v (dom env)) as [names|].
  - destruct Hv as [<- [r Hr]].
    destruct (interp v env) as [env' o]. simpl in *. subst o. apply IH.
  - destruct Hv as (name & Hr & Hname).
    destruct (interp v env) as [env' o]. simpl in *. subst o. eauto.
Qed.

Lemma interp_list_by_names items :
  Forall (fun v => forall env, outcome_by_names v env) items ->
  forall (env : gmap string tree) output,
    match bound_after_list bound_after items (dom env) with
    | Some names =>
        dom (interp_list interp items env output).1 = names /\
        exists v, (interp_list interp items env output).2 = Return v
    | None =>
        exists name, (interp_list interp items env output).2 = Raise (KeyError name) /\
                     name ∉ dom (interp_list interp items env output).1
    end.
Proof.
  induction 1 as [|v items Hv _ IH]; intros env output; simpl; [eauto|].
  specialize (Hv env). unfold outcome_by_names in Hv.
  destruct (bound_after v (dom env)) as [names|].
  - destruct Hv as [<- [r Hr]].
    destruct (interp v env) as [env' o]. simpl in *. subst o. apply IH.
  - destruct Hv as (name & Hr & Hname).
    destruct (interp v env) as [env' o]. simpl in *. subst o. eauto.
Qed.

(** [interp] raises [KeyError] exactly when, in its order of evaluation, it
    reaches a reference whose name is bound neither in the starting
    environment nor by a declaration reached before; otherwise it returns,
    and the names bound are those of the start and of the declarations
    reached.  References inside the value of a declaration are not
    reached. *)
Lemma interp_by_names (t : tree) (env : gmap string tree) : outcome_by_names t env.
Proof.
  revert env. induction t as [x|s|d IH|l IH|name value _|name] using tree_induction;
    intros env; unfold outcome_by_names; simpl.
  - eauto.
  - eauto.
  - by apply interp_dict_by_names.
  - by apply interp_list_by_names.
  - split; [apply dom_insert_L|eauto].
  - destruct (decide (name ∈ dom env)) as [Hin|Hout].
    + apply elem_of_dom in Hin as [v ->]. eauto.
    + pose proof Hout as Hnone. apply not_elem_of_dom in Hnone. rewrite Hnone. eauto.
Qed.

(** ** The parser never runs out of budget *)

Local Open Scope nat_scope.

Lemma length_app s t : String.length (s +:+ t) = String.length s + String.length t.
Proof. induction s as [|c s IH]; [done|]. rewrite app_cons. simpl. by rewrite IH. Qed.

Lemma match_length r s tok rest :
  match_ r s = Some (tok, rest) -> String.length rest <= String.length s.
Proof.
  intros H. apply match_sound in H as [-> _]. rewrite length_app. lia.
Qed.

Lemma keyword_length kw s rest :
  Lark.keyword kw s = Some rest ->
  String.length s = String.length kw + String.length rest.
Proof.
  revert s. induction kw as [|a kw IH]; intros s; simpl.
  - by intros [= ->].
  - destruct s as [|b s]; [done|]. destruct (Ascii.eqb a b); [|done].
    intros H. apply IH in H. simpl. lia.
Qed.

Lemma ignore_length n s : String.length (Lark.ignore n s) <= String.length s.
Proof.
  revert s. induction n as [|n IH]; intros s; simpl; [done|].
  destruct (match_ IGNORE_WS s) as [[tok rest]|] eqn:Hws.
  - apply match_length in Hws. specialize (IH rest). lia.
  - destruct (match_ IGNORE_COMMENT s) as [[tok rest]|] eqn:Hc; [|done].
    apply match_length in Hc. specialize (IH rest). lia.
Qed.

Lemma skip_length s : String.length (Lark.skip s) <= String.length s.
Proof. apply ignore_length. Qed.

Lemma token_length r s tok rest :
  Lark.token r s = Lark.Parsed tok rest -> String.length rest <= String.length s.
Proof.
  unfold Lark.token. destruct (match_ r (Lark.skip s)) as [[t u]|] eqn:H; [|done].
  intros [= _ <-]. apply match_length in H. pose proof (skip_length s). lia.
Qed.

Lemma expect_length kw s u rest :
  Lark.expect kw s = Lark.Parsed u rest ->
  String.length kw + String.length rest <= String.length s.
Proof.
  unfold Lark.expect. destruct (Lark.keyword kw (Lark.skip s)) as [t|] eqn:H; [|done].
  intros [= _ <-]. apply keyword_length in H. pose proof (skip_length s). lia.
Qed.

Lemma token_not_NoFuel r s : Lark.token r s <> Lark.NoFuel.
Proof. unfold Lark.token. by destruct (match_ r (Lark.skip s)) as [[]|]. Qed.

Lemma expect_not_NoFuel kw s : Lark.expect kw s <> Lark.NoFuel.
Proof. unfold Lark.expect. by destruct (Lark.keyword kw (Lark.skip s)). Qed.

Lemma NUM_length s tok rest :
  match_ NUM s = Some (tok, rest) -> String.length rest < String.length s.
Proof.
  intros H. apply match_sound in H as [-> H]. rewrite length_app.
  destruct tok; [|simpl; lia].
  apply fullmatch_lang in H. vm_compute in H. discriminate.
Qed.

(** A value that is parsed takes at least one character. *)
Lemma parse_length fuel :
  (forall s v rest,
      Lark.parse_value fuel s = Lark.Parsed v rest ->
      String.length rest < String.length s) /\
  (forall s l rest,
      Lark.parse_assigns fuel s = Lark.Parsed l rest ->
      String.length rest < String.length s).
Proof.
  induction fuel as [|n [IHv IHa]]; (split; [intros s v rest H|intros s l rest H]);
    try discriminate.
  - rewrite parse_value_S in H. pose proof (skip_length s) as Hskip.
    destruct (match_ NUM (Lark.skip s)) as [[text r]|] eqn:Hnum.
    { injection H as _ <-. apply NUM_length in Hnum. lia. }
    destruct (Lark.keyword "{" (Lark.skip s)) as [r|] eqn:Hk.
    { bind_inv H. injection H as _ <-. apply keyword_length in Hk.
      apply IHa in Hm. lia. }
    destruct (Lark.keyword "set" (Lark.skip s)) as [r|] eqn:Hset.
    { do 3 bind_inv H. injection H as _ <-. apply keyword_length in Hset.
      apply token_length in Hm. apply expect_length in Hm0. apply IHv in Hm1. lia. }
    destruct (Lark.keyword "$[" (Lark.skip s)) as [r|] eqn:Hr; [|done].
    do 2 bind_inv H. injection H as _ <-. apply keyword_length in Hr.
    apply token_length in Hm. apply expect_length in Hm0. simpl in *. lia.
  - rewrite parse_assigns_S in H. do 4 bind_inv H.
    apply token_length in Hm. apply expect_length in Hm0. apply IHv in Hm1.
    apply expect_length in Hm2.
    destruct (Lark.keyword "}" (Lark.skip rest3)) as [r|] eqn:Hk.
    + injection H as _ <-. apply keyword_length in Hk.
      pose proof (skip_length rest3). simpl in *. lia.
    + bind_inv H. injection H as _ <-. apply IHa in Hm3. simpl in *. lia.
Qed.

Lemma bind_NoFuel {A B : Type} (m : Lark.outcome A) (f : A -> string -> Lark.outcome B) :
  m <> Lark.NoFuel ->
  (forall a rest, m = Lark.Parsed a rest -> f a rest <> Lark.NoFuel) ->
  Lark.bind m f <> Lark.NoFuel.
Proof. destruct m; simpl; eauto. Qed.

(** A budget larger than the text is enough. *)
Lemma parse_fuel fuel :
  (forall s, String.length s < fuel -> Lark.parse_value fuel s <> Lark.NoFuel) /\
  (forall s, String.length s < fuel -> Lark.parse_assigns fuel s <> Lark.NoFuel).
Proof.
  induction fuel as [|n [IHv IHa]]; (split; intros s Hs); [lia|lia| |].
  - rewrite parse_value_S. pose proof (skip_length s) as Hskip.
    destruct (match_ NUM (Lark.skip s)) as [[text r]|]; [done|].
    destruct (Lark.keyword "{" (Lark.skip s)) as [r|] eqn:Hk.
    { apply keyword_length in Hk. simpl in Hk.
      apply bind_NoFuel; [apply IHa; lia|done]. }
    destruct (Lark.keyword "set" (Lark.skip s)) as [r|] eqn:Hset.
    { apply keyword_length in Hset. simpl in Hset.
      apply bind_NoFuel; [apply token_not_NoFuel|]. intros name r1 H1.
      apply bind_NoFuel; [apply expect_not_NoFuel|]. intros u r2 H2.
      apply token_length in H1. apply expect_length in H2. simpl in H2.
      apply bind_NoFuel; [apply IHv; lia|done]. }
    destruct (Lark.keyword "$[" (Lark.skip s)) as [r|]; [|done].
    apply bind_NoFuel; [apply token_not_NoFuel|]. intros name r1 H1.
    apply bind_NoFuel; [apply expect_not_NoFuel|done].
  - rewrite parse_assigns_S.
    apply bind_NoFuel; [apply token_not_NoFuel|]. intros name r1 H1.
    apply bind_NoFuel; [apply expect_not_NoFuel|]. intros u r2 H2.
    apply token_length in H1. apply expect_length in H2. simpl in H2.
    apply bind_NoFuel; [apply IHv; lia|]. intros v r3 H3.
    apply (proj1 (parse_length n)) in H3.
    apply bind_NoFuel; [apply expect_not_NoFuel|]. intros u' r4 H4.
    apply expect_length in H4. simpl in H4.
    destruct (Lark.keyword "}" (Lark.skip r4)); [done|].
    apply bind_NoFuel; [apply IHa; lia|done].
Qed.

Lemma parse_start_fuel n s :
  String.length s <= n -> Lark.parse_start (S n) s <> Lark.NoFuel.
Proof.
  revert s. induction n as [|n IH]; intros s Hs.
  - change (Lark.parse_start 1 s) with
      (Lark.bind (Lark.parse_value 1 s) (fun v rest =>
         match Lark.skip rest with
         | EmptyString => Lark.Parsed [v] EmptyString
         | _ => Lark.bind (Lark.parse_start 0 rest) (fun vs rest => Lark.Parsed (v :: vs) rest)
         end)).
    apply bind_NoFuel; [apply parse_fuel; lia|]. intros v rest H.
    apply (proj1 (parse_length 1)) in H. lia.
  - change (Lark.parse_start (S (S n)) s) with
      (Lark.bind (Lark.parse_value (S (S n)) s) (fun v rest =>
         match Lark.skip rest with
         | EmptyString => Lark.Parsed [v] EmptyString
         | _ => Lark.bind (Lark.parse_start (S n) rest)
                          (fun vs rest => Lark.Parsed (v :: vs) rest)
         end)).
    apply bind_NoFuel; [apply parse_fuel; lia|]. intros v rest H.
    apply (proj1 (parse_length (S (S n)))) in H.
    destruct (Lark.skip rest); [done|].
    apply bind_NoFuel; [apply IH; lia|done].
Qed.

(** The model of [parse] always answers: it accepts the text or rejects it. *)
Lemma parse_total input : Lark.parse input <> Lark.NoFuel.
Proof. apply parse_start_fuel. lia. Qed.

Lemma run_total input : run input <> ModelNoFuel.
Proof.
  unfold run. pose proof (parse_total input).
  destruct (Lark.parse input); [|done|done].
  destruct (T.transform_start a); [|done].
  by destruct (interp t ∅) as [env []].
Qed.

(** * Further properties of the interpreter *)

(** ** Values without declarations and references *)

Lemma interp_dict_plain items :
  Forall (fun kv => forall env : gmap string tree,
              interp kv.2 env = (env, Return kv.2)) items ->
  forall (env : gmap string tree) output,
    NoDup (map fst output ++ map fst items) ->
    interp_dict interp items env output = (env, Return (VDict (output ++ items))).
Proof.
  induction 1 as [|[k v] items Hv _ IH]; intros env output Hnd; simpl.
  - by rewrite List.app_nil_r.
  - simpl in Hv. rewrite Hv.
    assert (Hk : k ∉ map fst output).
    { apply NoDup_app in Hnd as (_ & Hdisj & _).
      intros Hin. apply (Hdisj k Hin). left. }
    rewrite dict_setitem_fresh by done.
    rewrite IH.
    + by rewrite <- List.app_assoc.
    + rewrite map_app. simpl. by rewrite <- List.app_assoc.
Qed.

Lemma interp_list_plain items :
  Forall (fun v => forall env : gmap string tree, interp v env = (env, Return v)) items ->
  forall (env : gmap string tree) output,
    interp_list interp items env output = (env, Return (VList (output ++ items))).
Proof.
  induction 1 as [|v items Hv _ IH]; intros env output; simpl.
  - by rewrite List.app_nil_r.
  - rewrite Hv, IH. by rewrite <- List.app_assoc.
Qed.

Lemma interp_plain (t : tree) (env : gmap string tree) :
  resolved t = true -> proper_dicts t = true ->
  interp t env = (env, Return t).
Proof.
  revert env. induction t as [x|s|d IH|l IH|name value _|name] using tree_induction;
    intros env Hres Hdict; simpl in *; try done.
  - apply andb_prop in Hdict as [Hnd Hdict]. apply bool_decide_eq_true in Hnd.
    apply interp_dict_plain; [|done].
    clear Hnd. induction IH as [|kv d Hkv _ IHd]; [done|]. simpl in *.
    apply andb_prop in Hres as [? ?]. apply andb_prop in Hdict as [? ?].
    constructor; [intros env'; by apply Hkv|by apply IHd].
  - apply interp_list_plain.
    induction IH as [|v l Hv _ IHl]; [done|]. simpl in *.
    apply andb_prop in Hres as [? ?]. apply andb_prop in Hdict as [? ?].
    constructor; [intros env'; by apply Hv|by apply IHl].
Qed.

(** A value in which neither a declaration nor a reference occurs, numbers
    and records of numbers at any depth, evaluates to itself and leaves the
    environment as it was. *)
Theorem plain_value_evaluates_to_itself (t : tree) (env : gmap string tree) :
  resolved t = true -> proper_dicts t = true ->
  interp t env = (env, Return t).
Proof. apply interp_plain. Qed.

Lemma plain_value_evaluates_to_itself_witness :
  interp (VList [VFloat (number 5);
                 VDict [("A", VFloat (number 1)); ("B", VDict [("C", VFloat (number 2))])]])
         (<["x" := VFloat (number 7)]> ∅) =
  (<["x" := VFloat (number 7)]> ∅,
   Return (VList [VFloat (number 5);
                  VDict [("A", VFloat (number 1)); ("B", VDict [("C", VFloat (number 2))])]])).
Proof.
  apply plain_value_evaluates_to_itself; reflexivity.
Defined.

(** ** When the result holds no tuple *)

Lemma resolved_dict_setitem (output : list (string * tree)) k r :
  forallb (fun kv => resolved kv.2) output = true ->
  resolved r = true ->
  forallb (fun kv => resolved kv.2) (dict_setitem output k r) = true.
Proof.
  intros Hout Hr. induction output as [|[k' v'] output IH]; simpl in *.
  - by rewrite Hr.
  - apply andb_prop in Hout as [Hv' Hout].
    destruct (String.eqb k' k); simpl.
    + by rewrite Hr, Hout.
    + by rewrite Hv', IH.
Qed.

Lemma interp_dict_resolved items :
  Forall (fun kv => keeps_resolved kv.2) items ->
  forall (env : gmap string tree) output,
    resolved_env env ->
    forallb (fun kv => plain_consts kv.2) items = true ->
    forallb (fun kv => resolved kv.2) output = true ->
    resolved_env (interp_dict interp items env output).1 /\
    forall v, (interp_dict interp items env output).2 = Return v -> resolved v = true.
Proof.
  induction 1 as [|[k t] items Ht _ IH]; intros env output Henv Hplain Hout; simpl in *.
  - split; [done|]. by intros v [= <-].
  - apply andb_prop in Hplain as [Hpt Hplain].
    destruct (Ht env Henv Hpt) as [Henv' Hr].
    destruct (interp t env) as [env' [r|e]]; simpl in *; [|done].
    apply IH; [done|done|]. apply resolved_dict_setitem; [done|by apply Hr].
Qed.

Lemma interp_list_resolved items :
  Forall keeps_resolved items ->
  forall (env : gmap string tree) output,
    resolved_env env ->
    forallb plain_consts items = true ->
    forallb resolved output = true ->
    resolved_env (interp_list interp items env output).1 /\
    forall v, (interp_list interp items env output).2 = Return v -> resolved v = true.
Proof.
  induction 1 as [|t items Ht _ IH]; intros env output Henv Hplain Hout; simpl in *.
  - split; [done|]. by intros v [= <-].
  - apply andb_prop in Hplain as [Hpt Hplain].
    destruct (Ht env Henv Hpt) as [Henv' Hr].
    destruct (interp t env) as [env' [r|e]]; simpl in *; [|done].
    apply IH; [done|done|]. rewrite forallb_app, Hout. simpl. by rewrite (Hr r).
Qed.

(** When the constants in the environment and the values of the
    declarations reached are free of declarations and references, so are
    the result of [interp] and the constants it leaves in the environment:
    every reference reached has been replaced by a value, and no tuple is
    handed to [json.dumps]. *)
Theorem plain_constants_give_resolved_result (t : tree) (env : gmap string tree) :
  map_Forall (fun _ v => resolved v = true) env ->
  plain_consts t = true ->
  map_Forall (fun _ v => resolved v = true) (interp t env).1 /\
  forall v, (interp t env).2 = Return v -> resolved v = true.
Proof.
  revert env. change (keeps_resolved t).
  induction t as [x|s|d IH|l IH|name value _|name] using tree_induction;
    intros env Henv Hplain; simpl in *.
  - split; [done|]. by intros v [= <-].
  - split; [done|]. by intros v [= <-].
  - by apply interp_dict_resolved.
  - by apply interp_list_resolved.
  - split.
    + by apply map_Forall_insert_2.
    + intros v [= <-]. simpl. by rewrite Hplain.
  - destruct (env !! name) as [u|] eqn:Hu; simpl; (split; [done|]); [|done].
    intros v [= <-]. by apply (Henv name u).
Qed.

Lemma plain_constants_give_resolved_result_witness :
  map_Forall (fun _ v => resolved v = true)
    (interp (VList [VConst "a" (VFloat (number 5)); VDict [("e", VRef "a")]]) ∅).1 /\
  forall v,
    (interp (VList [VConst "a" (VFloat (number 5)); VDict [("e", VRef "a")]]) ∅).2 = Return v ->
    resolved v = true.
Proof.
  apply plain_constants_give_resolved_result.
  - apply map_Forall_empty.
  - reflexivity.
Defined.

(** ** The first failure ends the evaluation *)

Lemma interp_dict_app items1 items2 (env : gmap string tree) output :
  interp_dict interp (items1 ++ items2) env output =
  match interp_dict interp items1 env output with
  | (env', Return (VDict output')) => interp_dict interp items2 env' output'
  | r => r
  end.
Proof.
  revert env output. induction items1 as [|[k v] items1 IH]; intros env output; simpl.
  - done.
  - destruct (interp v env) as [env' [r|e]]; [apply IH|done].
Qed.

Lemma interp_dict_result items (env env' : gmap string tree) output v :
  interp_dict interp items env output = (env', Return v) ->
  exists output', v = VDict output'.
Proof.
  revert env output. induction items as [|[k t] items IH]; intros env output; simpl.
  - intros [= _ <-]. eauto.
  - destruct (interp t env) as [env1 [r|e]]; [apply IH|done].
Qed.

(** When the values before [t], in a list or in a record, evaluate and [t]
    raises, the whole list or record raises the same exception: the values
    after [t] are not evaluated, and the environment is the one [t] left. *)
Theorem first_failure_ends_evaluation
    (t : tree) (env env1 env2 : gmap string tree) (v1 : tree) (e : exception) :
  interp t env1 = (env2, Raise e) ->
  (forall l1 l2 : list tree,
      interp (VList l1) env = (env1, Return v1) ->
      interp (VList (l1 ++ t :: l2)) env = (env2, Raise e)) /\
  (forall (d1 d2 : list (string * tree)) (k : string),
      interp (VDict d1) env = (env1, Return v1) ->
      interp (VDict (d1 ++ (k, t) :: d2)) env = (env2, Raise e)).
Proof.
  intros Ht. split.
  - intros l1 l2 H1. simpl in *. rewrite interp_list_app, H1.
    destruct (interp_list_result _ _ _ _ _ H1) as [out ->]. simpl. by rewrite Ht.
  - intros d1 d2 k H1. simpl in *. rewrite interp_dict_app, H1.
    destruct (interp_dict_result _ _ _ _ _ H1) as [out ->]. simpl. by rewrite Ht.
Qed.

Lemma first_failure_ends_evaluation_witness :
  interp (VList ([VConst "a" (VFloat (number 1))] ++ VRef "zz" :: [VConst "b" (VFloat (number 2))])) ∅ =
    (<["a" := VFloat (number 1)]> ∅, Raise (KeyError "zz")) /\
  interp (VDict ([("p", VConst "a" (VFloat (number 1)))] ++ ("q", VRef "zz")
                   :: [("r", VConst "b" (VFloat (number 2)))])) ∅ =
    (<["a" := VFloat (number 1)]> ∅, Raise (KeyError "zz")).
Proof.
  assert (Hzz : interp (VRef "zz") (<["a" := VFloat (number 1)]> ∅) =
                (<["a" := VFloat (number 1)]> ∅, Raise (KeyError "zz")))
    by (vm_compute; reflexivity).
  split.
  - apply (proj1 (first_failure_ends_evaluation _ ∅ _ _
                    (VList [VList [VStr "a"; VFloat (number 1)]]) _ Hzz)).
    vm_compute. reflexivity.
  - apply (proj2 (first_failure_ends_evaluation _ ∅ _ _
                    (VDict [("p", VList [VStr "a"; VFloat (number 1)])]) _ Hzz)).
    vm_compute. reflexivity.
Defined.

(** ** One result for each value *)

Lemma transform_all_length l ts :
  T.transform_all l = Some ts -> length ts = length l.
Proof.
  revert ts. induction l as [|v l IH]; intros ts; simpl.
  - by intros [= <-].
  - destruct (T.transform v); [|done]. destruct (T.transform_all l) as [ts'|]; [|done].
    intros [= <-]. simpl. by rewrite (IH ts').
Qed.

Lemma interp_list_length items (env env' : gmap string tree) output v :
  interp_list interp items env output = (env', Return v) ->
  exists output', v = VList output' /\ length output' = length output + length items.
Proof.
  revert env output. induction items as [|t items IH]; intros env output; simpl.
  - intros [= _ <-]. exists output. split; [done|lia].
  - destruct (interp t env) as [env1 [r|e]]; [|done].
    intros H. apply IH in H as (out & -> & Hlen). exists out. split; [done|].
    rewrite List.length_app in Hlen. simpl in Hlen. lia.
Qed.

(** The value the program hands to [json.dumps] is a list with one element
    for each top-level value of the text, declarations included. *)
Theorem result_has_one_entry_per_value
    (input : string) (l : list value) (rest : string)
    (env : gmap string tree) (v : tree) :
  Lark.parse input = Lark.Parsed l rest ->
  run input = Value env v ->
  exists results, v = VList results /\ length results = length l.
Proof.
  intros Hparse. unfold run, T.transform_start. rewrite Hparse.
  destruct (T.transform_all l) as [ts|] eqn:Hts; [|done]. simpl.
  destruct (interp_list interp ts ∅ []) as [env' [r|e]] eqn:Hrun; [|done].
  intros [= _ <-]. apply interp_list_length in Hrun as (out & -> & Hlen).
  exists out. split; [done|]. apply transform_all_length in Hts. simpl in Hlen. lia.
Qed.

Lemma result_has_one_entry_per_value_witness :
  exists results,
    VList [VList [VStr "a"; VFloat (number 5)]; VFloat (number 5)] = VList results /\
    length results = length [value_const "a" (value_NUM "5"); value_reference "a"].
Proof.
  apply (result_has_one_entry_per_value "set a = 5 $[a]"
           [value_const "a" (value_NUM "5"); value_reference "a"] ""
           (<["a" := VFloat (number 5)]> ∅)).
  - vm_compute. reflexivity.
  - vm_compute. reflexivity.
Defined.

(** ** Declarations inside records *)



(** * Further properties of the parser *)

(** ** Greedy repetition *)

Lemma span_app_1 p s : (PyFloat.span p s).1 +:+ (PyFloat.span p s).2 = s.
Proof.
  induction s as [|c s IH]; simpl; [done|].
  destruct (p c); [|done]. destruct (PyFloat.span p s) as [a b]. simpl in *.
  by rewrite app_cons, IH.
Qed.

(** When the rest of the pattern cannot fail, [c*] takes the longest run of
    characters of the class. *)
Lemma star_greedy {A : Type} p acc s (k : string -> string -> option A) :
  (forall a t, is_Some (k a t)) ->
  star p acc s k = k (acc +:+ (PyFloat.span p s).1) (PyFloat.span p s).2.
Proof.
  intros Hk. revert acc. induction s as [|c s IH]; intros acc; simpl.
  - by rewrite app_nil_r.
  - destruct (p c); [|by rewrite app_nil_r].
    rewrite IH. destruct (PyFloat.span p s) as [a b]. simpl.
    rewrite <- app_assoc, app_cons, app_nil_l.
    by destruct (Hk (acc +:+ String c a) b) as [x ->].
Qed.

(** A name is read to its end: the token is the first letter and the
    longest run of letters and digits after it, whatever follows. *)
Theorem NAME_is_longest_match (s : string) :
  match_ NAME s =
  match s with
  | String c s' =>
      if letter c
      then Some (String c (PyFloat.span alnum s').1, (PyFloat.span alnum s').2)
      else None
  | EmptyString => None
  end.
Proof.
  unfold match_, NAME. simpl. destruct s as [|c s]; [done|].
  destruct (letter c); [|done].
  rewrite star_greedy by done. by rewrite app_nil_l, app_cons, app_nil_l.
Qed.

(** ** Texts without a value *)

(** A text of blanks and comments only, the empty text included, is
    rejected: a program has at least one value. *)
Theorem program_without_value_is_rejected (s : string) :
  Lark.skip s = EmptyString -> Lark.parse s = Lark.UnexpectedInput.
Proof.
  intros Hs. unfold Lark.parse.
  change (Lark.parse_start (S (String.length s)) s) with
    (Lark.bind (Lark.parse_value (S (String.length s)) s) (fun v rest =>
       match Lark.skip rest with
       | EmptyString => Lark.Parsed [v] EmptyString
       | _ => Lark.bind (Lark.parse_start (String.length s) rest)
                        (fun vs rest => Lark.Parsed (v :: vs) rest)
       end)).
  by rewrite parse_value_S, Hs.
Qed.

Lemma program_without_value_is_rejected_witness :
  Lark.parse ("  #only a comment" +:+ newline +:+ " ") = Lark.UnexpectedInput.
Proof.
  apply program_without_value_is_rejected. vm_compute. reflexivity.
Defined.

(** A [#] with no character after it on its line is not a comment (the
    pattern asks for one character at least): wherever a value is expected
    it is rejected, and so is a text that starts with it. *)
Theorem empty_comment_is_rejected :
  (forall (n : nat) (s r : string),
      Lark.skip s = String "#" r ->
      Lark.parse_value (S n) s = Lark.UnexpectedInput) /\
  (forall s : string,
      Lark.parse ("#" +:+ newline +:+ s) = Lark.UnexpectedInput) /\
  Lark.parse "#" = Lark.UnexpectedInput.
Proof.
  assert (Hvalue : forall (n : nat) (s r : string),
             Lark.skip s = String "#" r ->
             Lark.parse_value (S n) s = Lark.UnexpectedInput).
  { intros n s r Hs. by rewrite parse_value_S, Hs. }
  split; [done|]. split; [|reflexivity].
  intros s. unfold Lark.parse.
  set (text := "#" +:+ newline +:+ s).
  change (Lark.parse_start (S (String.length text)) text) with
    (Lark.bind (Lark.parse_value (S (String.length text)) text) (fun v rest =>
       match Lark.skip rest with
       | EmptyString => Lark.Parsed [v] EmptyString
       | _ => Lark.bind (Lark.parse_start (String.length text) rest)
                        (fun vs rest => Lark.Parsed (v :: vs) rest)
       end)).
  by rewrite (Hvalue _ text (newline +:+ s)).
Qed.

Lemma empty_comment_is_rejected_witness :
  Lark.parse_value 1 ("   #" +:+ newline +:+ "5") = Lark.UnexpectedInput.
Proof.
  apply (proj1 empty_comment_is_rejected 0 _ (newline +:+ "5")).
  vm_compute. reflexivity.
Defined.

(** ** Blanks and comments *)

Lemma skip_space c s : space c = true -> Lark.skip (String c s) = Lark.skip s.
Proof.
  intros Hc. unfold Lark.skip. simpl. unfold match_, IGNORE_WS. simpl. by rewrite Hc.
Qed.

Lemma parse_value_skip fuel s s' :
  Lark.skip s = Lark.skip s' -> Lark.parse_value fuel s = Lark.parse_value fuel s'.
Proof. intros H. destruct fuel; [done|]. by rewrite !parse_value_S, H. Qed.

Lemma token_skip r s s' :
  Lark.skip s = Lark.skip s' -> Lark.token r s = Lark.token r s'.
Proof. intros H. unfold Lark.token. by rewrite H. Qed.

Lemma expect_skip kw s s' :
  Lark.skip s = Lark.skip s' -> Lark.expect kw s = Lark.expect kw s'.
Proof. intros H. unfold Lark.expect. by rewrite H. Qed.

Lemma parse_assigns_skip fuel s s' :
  Lark.skip s = Lark.skip s' -> Lark.parse_assigns fuel s = Lark.parse_assigns fuel s'.
Proof.
  intros H. destruct fuel; [done|]. by rewrite !parse_assigns_S, (token_skip _ s s').
Qed.

Lemma parse_start_S n s :
  Lark.parse_start (S n) s =
  Lark.bind (Lark.parse_value (S n) s) (fun v rest =>
    match Lark.skip rest with
    | EmptyString => Lark.Parsed [v] EmptyString
    | _ => Lark.bind (Lark.parse_start n rest) (fun vs rest => Lark.Parsed (v :: vs) rest)
    end).
Proof. reflexivity. Qed.

Lemma parse_start_skip fuel s s' :
  Lark.skip s = Lark.skip s' -> Lark.parse_start fuel s = Lark.parse_start fuel s'.
Proof.
  intros H. destruct fuel; [done|]. by rewrite !parse_start_S, (parse_value_skip _ s s').
Qed.

(** More budget does not change an answer. *)
Lemma bind_not_NoFuel {A B : Type} (m : Lark.outcome A) (f : A -> string -> Lark.outcome B) :
  Lark.bind m f <> Lark.NoFuel -> m <> Lark.NoFuel.
Proof. by destruct m. Qed.

Lemma parse_more_fuel n :
  (forall s, Lark.parse_value n s <> Lark.NoFuel ->
             Lark.parse_value (S n) s = Lark.parse_value n s) /\
  (forall s, Lark.parse_assigns n s <> Lark.NoFuel ->
             Lark.parse_assigns (S n) s = Lark.parse_assigns n s).
Proof.
  induction n as [|n [IHv IHa]]; (split; intros s H); [done|done| |].
  - rewrite (parse_value_S (S n)). rewrite parse_value_S in H |- *.
    destruct (match_ NUM (Lark.skip s)) as [[text r]|]; [done|].
    destruct (Lark.keyword "{" (Lark.skip s)) as [r|].
    { by rewrite IHa by (by apply bind_not_NoFuel in H). }
    destruct (Lark.keyword "set" (Lark.skip s)) as [r|].
    { destruct (Lark.token NAME r) as [name r1| |]; cbn [Lark.bind] in *; [|done|done].
      destruct (Lark.expect "=" r1) as [u r2| |]; cbn [Lark.bind] in *; [|done|done].
      by rewrite IHv by (by apply bind_not_NoFuel in H). }
    done.
  - rewrite (parse_assigns_S (S n)). rewrite parse_assigns_S in H |- *.
    destruct (Lark.token NAME s) as [name r1| |]; cbn [Lark.bind] in *; [|done|done].
    destruct (Lark.expect "->" r1) as [u r2| |]; cbn [Lark.bind] in *; [|done|done].
    rewrite IHv by (by apply bind_not_NoFuel in H).
    destruct (Lark.parse_value n r2) as [v r3| |]; cbn [Lark.bind] in *; [|done|done].
    destruct (Lark.expect "." r3) as [u' r4| |]; cbn [Lark.bind] in *; [|done|done].
    destruct (Lark.keyword "}" (Lark.skip r4)); [done|].
    by rewrite IHa by (by apply bind_not_NoFuel in H).
Qed.

Lemma parse_start_more_fuel n s :
  Lark.parse_start n s <> Lark.NoFuel ->
  Lark.parse_start (S n) s = Lark.parse_start n s.
Proof.
  revert s. induction n as [|n IH]; intros s H; [done|].
  rewrite (parse_start_S (S n)). rewrite parse_start_S in H |- *.
  rewrite (proj1 (parse_more_fuel (S n))) by (by apply bind_not_NoFuel in H).
  destruct (Lark.parse_value (S n) s) as [v r| |]; cbn [Lark.bind] in *; [|done|done].
  destruct (Lark.skip r); [done|].
  by rewrite IH by (by apply bind_not_NoFuel in H).
Qed.

Lemma parse_start_enough n s :
  String.length s <= n -> Lark.parse_start (S n) s = Lark.parse s.
Proof.
  unfold Lark.parse. induction 1 as [|n Hle IH]; [done|].
  rewrite parse_start_more_fuel; [done|].
  rewrite IH. apply parse_total.
Qed.

(** A prefix that [skip] drops does not change what is parsed. *)
Lemma parse_skipped_prefix text s :
  Lark.skip text = Lark.skip s -> String.length s <= String.length text ->
  Lark.parse text = Lark.parse s.
Proof.
  intros Hskip Hlen. unfold Lark.parse at 1.
  rewrite (parse_start_skip _ text s Hskip). by apply parse_start_enough.
Qed.

Lemma span_all p run rest :
  all p run = true ->
  match rest with String c _ => p c = false | EmptyString => True end ->
  PyFloat.span p (run +:+ rest) = (run, rest).
Proof.
  intros Hrun Hrest. induction run as [|c run IH].
  - rewrite app_nil_l. destruct rest as [|c r]; [done|]. simpl. by rewrite Hrest.
  - simpl in Hrun. apply andb_prop in Hrun as [Hc Hrun].
    rewrite app_cons. simpl. by rewrite Hc, IH.
Qed.

Lemma ignored_length r s tok rest :
  fullmatch r EmptyString = false ->
  match_ r s = Some (tok, rest) -> String.length rest < String.length s.
Proof.
  intros Hr H. apply match_sound in H as [-> H]. rewrite length_app.
  destruct tok; [|simpl; lia].
  apply fullmatch_lang in H. congruence.
Qed.

(** Once the budget of [ignore] covers the text, more of it changes
    nothing. *)
Lemma ignore_enough n m s :
  String.length s <= n -> String.length s <= m -> Lark.ignore n s = Lark.ignore m s.
Proof.
  revert m s. induction n as [|n IH]; intros m s Hn Hm.
  - destruct s; [|simpl in Hn; lia]. by destruct m.
  - destruct m as [|m].
    { destruct s; [done|simpl in Hm; lia]. }
    simpl. destruct (match_ IGNORE_WS s) as [[tok rest]|] eqn:Hws.
    + apply ignored_length in Hws; [|done]. apply IH; lia.
    + destruct (match_ IGNORE_COMMENT s) as [[tok rest]|] eqn:Hc; [|done].
      apply ignored_length in Hc; [|done]. apply IH; lia.
Qed.

Lemma match_comment body s :
  body <> EmptyString -> all not_newline body = true ->
  match_ IGNORE_COMMENT ("#" +:+ body +:+ newline +:+ s) =
  Some ("#" +:+ body, newline +:+ s).
Proof.
  intros Hne Hbody. destruct body as [|b body]; [done|].
  simpl in Hbody. apply andb_prop in Hbody as [Hb Hbody].
  unfold match_, IGNORE_COMMENT. rewrite !app_cons, app_nil_l. simpl. rewrite Hb.
  rewrite star_greedy by done.
  by rewrite (span_all not_newline body (newline +:+ s)).
Qed.

Lemma skip_comment body s :
  body <> EmptyString -> all not_newline body = true ->
  Lark.skip ("#" +:+ body +:+ newline +:+ s) = Lark.skip s.
Proof.
  intros Hne Hbody. unfold Lark.skip at 1.
  pose proof (match_comment body s Hne Hbody) as Hmatch.
  destruct (String.length ("#" +:+ body +:+ newline +:+ s)) as [|n] eqn:Hlen.
  { by rewrite !app_cons in Hlen. }
  simpl. rewrite Hmatch.
  replace (match_ IGNORE_WS ("#" +:+ body +:+ newline +:+ s)) with (@None (string * string))
    by (by rewrite !app_cons).
  rewrite !length_app in Hlen. simpl in Hlen.
  rewrite (ignore_enough n (String.length (newline +:+ s))).
  - by apply (skip_space "010").
  - rewrite length_app. simpl. lia.
  - done.
Qed.

(** Blanks and comments are skipped: before a value, a name or a symbol a
    blank changes nothing, and a text parses as it does without a blank or
    a comment line in front of it. *)
Theorem blanks_and_comments_are_skipped :
  (forall (fuel : nat) (c : ascii) (s : string),
      space c = true ->
      Lark.parse_value fuel (String c s) = Lark.parse_value fuel s /\
      Lark.parse_assigns fuel (String c s) = Lark.parse_assigns fuel s /\
      Lark.token NAME (String c s) = Lark.token NAME s /\
      (forall kw, Lark.expect kw (String c s) = Lark.expect kw s)) /\
  (forall (c : ascii) (s : string),
      space c = true -> Lark.parse (String c s) = Lark.parse s) /\
  (forall body s : string,
      body <> EmptyString -> all not_newline body = true ->
      Lark.parse ("#" +:+ body +:+ newline +:+ s) = Lark.parse s).
Proof.
  split; [|split].
  - intros fuel c s Hc. pose proof (skip_space c s Hc) as Hskip.
    split; [by apply parse_value_skip|]. split; [by apply parse_assigns_skip|].
    split; [by apply token_skip|]. intros kw. by apply expect_skip.
  - intros c s Hc. apply parse_skipped_prefix; [by apply skip_space|]. simpl. lia.
  - intros body s Hne Hbody. apply parse_skipped_prefix; [by apply skip_comment|].
    rewrite !length_app. lia.
Qed.

Lemma blanks_and_comments_are_skipped_witness :
  Lark.parse (" " +:+ "set a = 5") = Lark.parse "set a = 5" /\
  Lark.parse ("#" +:+ "a comment" +:+ newline +:+ "set a = 5") = Lark.parse "set a = 5".
Proof.
  destruct blanks_and_comments_are_skipped as (_ & Hblank & Hcomment). split.
  - apply (Hblank " "%char "set a = 5"). reflexivity.
  - apply (Hcomment "a comment" "set a = 5"); [discriminate|reflexivity].
Defined.

(** * Further properties of the transformer *)

(** ** [float] reads every number token *)

Lemma lang_Chr_inv p s : lang (Chr p) s -> exists c, s = String c EmptyString /\ p c = true.
Proof. inversion 1; subst; eauto. Qed.

Lemma lang_Plus_inv p s :
  lang (Plus p) s -> exists c s', s = String c s' /\ p c = true /\ all p s' = true.
Proof. inversion 1; subst; eauto. Qed.

Lemma lang_Star_inv p s : lang (Star p) s -> all p s = true.
Proof. by inversion 1. Qed.

Lemma eE_inv c : eE c = true -> c = "e"%char \/ c = "E"%char.
Proof.
  unfold eE, lit. intros H. apply orb_prop in H as [H|H]; apply Ascii.eqb_eq in H; auto.
Qed.

Lemma sign_inv c : sign c = true -> c = "-"%char \/ c = "+"%char.
Proof.
  unfold sign, lit. intros H. apply orb_prop in H as [H|H]; apply Ascii.eqb_eq in H; auto.
Qed.

Lemma signed_digit c r :
  digit c = true -> PyFloat.signed (String c r) = (false, String c r).
Proof.
  intros H. destruct c as [[] [] [] [] [] [] [] []]; try discriminate H; reflexivity.
Qed.

Lemma span_digits ds :
  all digit ds = true -> PyFloat.span digit ds = (ds, EmptyString).
Proof.
  intros H. rewrite <- (app_nil_r ds) at 1. by apply span_all.
Qed.

Lemma exponent_reads x :
  lang EXPONENT x ->
  is_Some (PyFloat.exponent x) /\
  match x with String c _ => eE c = true | EmptyString => True end.
Proof.
  intros H. apply lang_Opt_inv in H as [->|H]; [done|].
  apply lang_Seq_inv in H as (s1 & s2 & -> & H1 & H2).
  apply lang_Chr_inv in H1 as (c & -> & Hc).
  apply lang_Seq_inv in H2 as (sg & ds & -> & Hsg & Hds).
  apply lang_Plus_inv in Hds as (d & ds' & -> & Hd & Hds').
  rewrite app_cons, app_nil_l. split; [|done].
  unfold PyFloat.exponent. rewrite Hc.
  assert (Hspan : PyFloat.span digit (String d ds') = (String d ds', EmptyString)).
  { apply span_digits. simpl. by rewrite Hd, Hds'. }
  apply lang_Opt_inv in Hsg as [->|Hsg].
  - rewrite app_nil_l, signed_digit by done. by rewrite Hspan.
  - apply lang_Chr_inv in Hsg as (g & -> & Hg). rewrite app_cons, app_nil_l.
    apply sign_inv in Hg as [->| ->]; unfold PyFloat.signed; by rewrite Hspan.
Qed.

Lemma float_after_sign text neg body x :
  PyFloat.signed text = (neg, body +:+ x) ->
  lang (Alt (Plus digit)
            (Alt (Seq (Plus digit) (Seq (Chr (lit ".")) (Star digit))) DOT_DIGITS)) body ->
  lang EXPONENT x ->
  is_Some (PyFloat.float text).
Proof.
  intros Hsigned Hbody Hx. unfold PyFloat.float. rewrite Hsigned.
  destruct (exponent_reads x Hx) as [[e He] Hhead].
  assert (Hstop : match x with String c _ => digit c = false | EmptyString => True end).
  { destruct x as [|c x]; [done|]. by apply eE_inv in Hhead as [->| ->]. }
  assert (Hnodot : match x with
                   | String "." r => PyFloat.span digit r
                   | _ => (EmptyString, x)
                   end = (EmptyString, x)).
  { destruct x as [|c x]; [done|]. by apply eE_inv in Hhead as [->| ->]. }
  apply lang_Alt_inv in Hbody as [Hbody|Hbody].
  - apply lang_Plus_inv in Hbody as (d & ds & -> & Hd & Hds).
    rewrite (span_all digit (String d ds) x) by (simpl; by rewrite ?Hd, ?Hds).
    rewrite Hnodot, app_nil_r, He. done.
  - apply lang_Alt_inv in Hbody as [Hbody|Hbody].
    + apply lang_Seq_inv in Hbody as (ip & s2 & -> & Hip & H2).
      apply lang_Plus_inv in Hip as (d & ds & -> & Hd & Hds).
      apply lang_Seq_inv in H2 as (dot & fs & -> & Hdot & Hfs).
      apply lang_Chr_inv in Hdot as (c & -> & Hc). apply Ascii.eqb_eq in Hc. subst c.
      apply lang_Star_inv in Hfs.
      rewrite <- !app_assoc.
      rewrite (span_all digit (String d ds)) by (by rewrite ?app_cons; simpl; rewrite ?Hd, ?Hds).
      rewrite app_cons, app_nil_l.
      rewrite (span_all digit fs x) by done.
      rewrite app_cons, He. done.
    + apply lang_Seq_inv in Hbody as (dot & fs & -> & Hdot & Hfs).
      apply lang_Chr_inv in Hdot as (c & -> & Hc). apply Ascii.eqb_eq in Hc. subst c.
      apply lang_Plus_inv in Hfs as (f & fs' & -> & Hf & Hfs').
      rewrite <- !app_assoc, app_cons, app_nil_l.
      change (PyFloat.span digit (String "." ?r)) with (EmptyString, String "."%char r).
      cbv beta iota.
      rewrite (span_all digit (String f fs') x) by (simpl; by rewrite ?Hf, ?Hfs').
      rewrite app_nil_l, He. done.
Qed.

(** [float] reads every text of the pattern of [NUM]: it raises no
    [ValueError] on a number token. *)
Lemma float_reads_NUM tok : lang NUM tok -> is_Some (float tok).
Proof.
  intros H. unfold NUM in H.
  apply lang_Seq_inv in H as (m & s1 & -> & Hm & H).
  apply lang_Seq_inv in H as (body & x & -> & Hbody & Hx).
  apply lang_Opt_inv in Hm as [->|Hm].
  - rewrite app_nil_l. apply (float_after_sign _ false body x); [|done|done].
    pose proof Hbody as Hhead.
    apply lang_Alt_inv in Hhead as [Hh|Hh].
    + apply lang_Plus_inv in Hh as (d & ds & -> & Hd & _).
      rewrite app_cons. by apply signed_digit.
    + apply lang_Alt_inv in Hh as [Hh|Hh].
      * apply lang_Seq_inv in Hh as (ip & s2 & -> & Hip & _).
        apply lang_Plus_inv in Hip as (d & ds & -> & Hd & _).
        rewrite !app_cons. by apply signed_digit.
      * apply lang_Seq_inv in Hh as (dot & fs & -> & Hdot & _).
        apply lang_Chr_inv in Hdot as (c & -> & Hc). apply Ascii.eqb_eq in Hc. subst c.
        by rewrite !app_cons.
  - apply lang_Chr_inv in Hm as (c & -> & Hc). apply Ascii.eqb_eq in Hc. subst c.
    rewrite app_cons, app_nil_l. by apply (float_after_sign _ true body x).
Qed.

Lemma parse_floats_read fuel :
  (forall s v rest,
      Lark.parse_value fuel s = Lark.Parsed v rest -> floats_read v = true) /\
  (forall s l rest,
      Lark.parse_assigns fuel s = Lark.Parsed l rest ->
      forallb (fun kv => floats_read kv.2) l = true).
Proof.
  induction fuel as [|n [IHv IHa]]; (split; [intros s v rest H|intros s l rest H]);
    try discriminate.
  - rewrite parse_value_S in H.
    destruct (match_ NUM (Lark.skip s)) as [[text r]|] eqn:Hnum.
    { injection H as <- _. apply match_sound in Hnum as [_ Hnum]. simpl.
      apply bool_decide_eq_true. by apply float_reads_NUM. }
    destruct (Lark.keyword "{" (Lark.skip s)) as [r|].
    { bind_inv H. injection H as <- _. simpl. eauto. }
    destruct (Lark.keyword "set" (Lark.skip s)) as [r|].
    { do 3 bind_inv H. injection H as <- _. simpl. eauto. }
    destruct (Lark.keyword "$[" (Lark.skip s)) as [r|]; [|done].
    do 2 bind_inv H. by injection H as <- _.
  - rewrite parse_assigns_S in H. do 4 bind_inv H.
    apply IHv in Hm1.
    destruct (Lark.keyword "}" (Lark.skip rest3)) as [r|].
    + injection H as <- _. simpl. by rewrite Hm1.
    + bind_inv H. injection H as <- _. apply IHa in Hm3.
      simpl. by rewrite Hm1, Hm3.
Qed.

Lemma parse_start_floats_read fuel s l rest :
  Lark.parse_start fuel s = Lark.Parsed l rest -> forallb floats_read l = true.
Proof.
  revert s l rest. induction fuel as [|n IH]; intros s l rest H; [done|].
  rewrite parse_start_S in H. bind_inv H.
  apply (proj1 (parse_floats_read _)) in Hm.
  destruct (Lark.skip rest0).
  - injection H as <- _. simpl. by rewrite Hm.
  - bind_inv H. injection H as <- _. apply IH in Hm0. simpl. by rewrite Hm, Hm0.
Qed.

Lemma transform_reads v : floats_read v = true -> is_Some (T.transform v).
Proof.
  induction v as [text|assigns IH|name v IH|name] using value_induction; simpl; intros H.
  - apply bool_decide_eq_true in H. unfold T.NUM. by destruct H as [x ->].
  - assert (Hchildren : is_Some
      ((fix children (l : list (string * value)) : option (list (string * tree)) :=
          match l with
          | [] => Some []
          | (k, v) :: l' =>
              match T.transform v, children l' with
              | Some v', Some r => Some (T.assign (T.NAME k) v' :: r)
              | _, _ => None
              end
          end) assigns)).
    { induction IH as [|[k v] l Hv _ IHl]; [done|]. simpl in *.
      apply andb_prop in H as [Hv' Hl].
      destruct (Hv Hv') as [t ->]. by destruct (IHl Hl) as [r ->]. }
    by destruct Hchildren as [r ->].
  - by destruct (IH H) as [t ->].
  - done.
Qed.

Lemma transform_all_reads l :
  forallb floats_read l = true -> is_Some (T.transform_all l).
Proof.
  induction l as [|v l IH]; simpl; [done|]. intros H.
  apply andb_prop in H as [Hv Hl].
  destruct (transform_reads v Hv) as [t ->]. by destruct (IH Hl) as [r ->].
Qed.

(** [float] reads every number of a text the parser accepts: [T.NUM]
    raises [ValueError] on no token, so that the transformer, on a stack
    deep enough for the tree, returns, and the program never ends in the
    [ValueError] of [float]. *)
Theorem accepted_numbers_are_read_by_float :
  (forall (input : string) (l : list value) (rest : string),
      Lark.parse input = Lark.Parsed l rest -> is_Some (T.transform_start l)) /\
  (forall input : string, run input <> ValueError).
Proof.
  assert (Htotal : forall (input : string) (l : list value) (rest : string),
             Lark.parse input = Lark.Parsed l rest -> is_Some (T.transform_start l)).
  { intros input l rest H. apply parse_start_floats_read in H.
    unfold T.transform_start. by destruct (transform_all_reads l H) as [ts ->]. }
  split; [done|]. intros input. unfold run.
  destruct (Lark.parse input) as [l rest| |] eqn:Hparse; [|done|done].
  destruct (Htotal input l rest Hparse) as [t ->].
  by destruct (interp t ∅) as [env []].
Qed.

Lemma accepted_numbers_are_read_by_float_witness :
  is_Some (T.transform_start [value_NUM "-1e3"; value_NUM ".5"]).
Proof.
  apply (proj1 accepted_numbers_are_read_by_float "-1e3 .5" _ "").
  vm_compute. reflexivity.
Defined.

(** ** The transformer and the depth of the stack *)

Lemma transform_within_dict stack2 assigns :
  T.transform_within (S (S stack2)) (value_dict assigns) =
  match
    (fix children (l : list (string * value)) : T.error + list (string * tree) :=
       match l with
       | [] => inr []
       | (k, v) :: l' =>
           match stack2 with
           | O => inl T.RecursionError
           | S stack3 =>
               match T.transform_within stack3 v with
               | inr v' =>
                   match children l' with
                   | inr r => inr (T.assign (T.NAME k) v' :: r)
                   | inl e => inl e
                   end
               | inl e => inl e
               end
           end
       end) assigns
  with
  | inr name => inr (T.dict name)
  | inl e => inl e
  end.
Proof. reflexivity. Qed.

(** With room for every tree, the transformer does what [T.transform]
    does. *)
Lemma transform_within_enough v stack :
  levels v <= stack ->
  T.transform_within stack v =
  match T.transform v with
  | Some t => inr t
  | None => inl T.ValueError
  end.
Proof.
  revert stack.
  induction v as [text|assigns IH|name v IH|name] using value_induction; intros stack H.
  - destruct stack as [|stack1]; [simpl in H; lia|]. simpl. by destruct (T.NUM text).
  - destruct stack as [|[|stack2]]; [simpl in H; lia..|].
    rewrite transform_within_dict.
    change (levels (value_dict assigns)) with
      (2 + (fix entries (l : list (string * value)) : nat :=
              match l with
              | [] => O
              | (_, v') :: l' => Nat.max (1 + levels v') (entries l')
              end) assigns) in H.
    simpl T.transform.
    match goal with
    | |- match ?a with _ => _ end = match _ <$> ?b with _ => _ end =>
        assert (Hchildren : a = match b with Some r => inr r | None => inl T.ValueError end)
    end.
    { assert (Hle : (fix entries (l : list (string * value)) : nat :=
              match l with
              | [] => O
              | (_, v') :: l' => Nat.max (1 + levels v') (entries l')
              end) assigns <= stack2) by lia.
      clear H. induction IH as [|[k v] l Hv _ IHl]; [done|].
      cbn [snd] in Hv.
      destruct stack2 as [|stack3]; [lia|].
      rewrite (Hv stack3) by lia.
      destruct (T.transform v) as [t|]; [|done].
      rewrite IHl by lia.
      by destruct ((fix children (l0 : list (string * value)) :=
                      match l0 with [] => Some [] | (k0, v0) :: l' =>
                        match T.transform v0, children l' with
                        | Some v', Some r => Some (T.assign (T.NAME k0) v' :: r)
                        | _, _ => None end end) l). }
    rewrite Hchildren.
    by destruct ((fix children (l0 : list (string * value)) :=
                      match l0 with [] => Some [] | (k0, v0) :: l' =>
                        match T.transform v0, children l' with
                        | Some v', Some r => Some (T.assign (T.NAME k0) v' :: r)
                        | _, _ => None end end) assigns).
  - destruct stack as [|[|stack2]]; [simpl in H; lia..|].
    simpl. rewrite IH by (simpl in H; lia). by destruct (T.transform v).
  - destruct stack as [|[|stack2]]; [simpl in H; lia..|]. done.
Qed.

(** Without room for every tree, the walk ends in [RecursionError] (the
    numbers before the place being read by [float]). *)
Lemma transform_within_short v stack :
  floats_read v = true ->
  stack < levels v ->
  T.transform_within stack v = inl T.RecursionError.
Proof.
  revert stack.
  induction v as [text|assigns IH|name v IH|name] using value_induction;
    intros stack Hread H.
  - destruct stack as [|stack1]; [done|]. simpl in H. lia.
  - destruct stack as [|[|stack2]]; [done..|].
    rewrite transform_within_dict.
    change (levels (value_dict assigns)) with
      (2 + (fix entries (l : list (string * value)) : nat :=
              match l with
              | [] => O
              | (_, v') :: l' => Nat.max (1 + levels v') (entries l')
              end) assigns) in H.
    simpl in Hread.
    match goal with
    | |- match ?a with _ => _ end = _ => assert (Hchildren : a = inl T.RecursionError)
    end.
    { assert (Hlt : stack2 < (fix entries (l : list (string * value)) : nat :=
              match l with
              | [] => O
              | (_, v') :: l' => Nat.max (1 + levels v') (entries l')
              end) assigns) by lia.
      clear H. induction IH as [|[k v] l Hv _ IHl]; [lia|].
      cbn [snd] in Hv. simpl in Hread. apply andb_prop in Hread as [Hreadv Hreadl].
      destruct stack2 as [|stack3]; [done|].
      destruct (Nat.le_gt_cases (levels v) stack3) as [Hle|Hgt].
      - rewrite transform_within_enough by done.
        destruct (transform_reads v Hreadv) as [t ->].
        rewrite IHl; [done|done|lia].
      - by rewrite Hv. }
    by rewrite Hchildren.
  - destruct stack as [|[|stack2]]; [done..|].
    simpl. rewrite IH; [done|done|simpl in H; lia].
  - destruct stack as [|[|stack2]]; [done..|]. simpl in H. lia.
Qed.

Lemma transform_all_within_enough l stack :
  foldr (fun v n => Nat.max (levels v) n) O l <= stack ->
  T.transform_all_within stack l =
  match T.transform_all l with
  | Some ts => inr ts
  | None => inl T.ValueError
  end.
Proof.
  induction l as [|v l IH]; [done|]. simpl. intros H.
  rewrite transform_within_enough by lia.
  destruct (T.transform v) as [t|]; [|done].
  rewrite IH by lia. by destruct (T.transform_all l).
Qed.

Lemma transform_all_within_short l stack :
  forallb floats_read l = true ->
  stack < foldr (fun v n => Nat.max (levels v) n) O l ->
  T.transform_all_within stack l = inl T.RecursionError.
Proof.
  induction l as [|v l IH]; simpl; [lia|]. intros Hread H.
  apply andb_prop in Hread as [Hv Hl].
  destruct (Nat.le_gt_cases (levels v) stack) as [Hle|Hgt].
  - rewrite transform_within_enough by done.
    destruct (transform_reads v Hv) as [t ->].
    rewrite IH; [done|done|lia].
  - by rewrite transform_within_short.
Qed.

(** On the parse tree of an accepted text the transformer ends in one of
    two ways, given by the room on the stack alone: with room for the
    nesting of the tree it returns what [T.transform] builds, without it
    raises [RecursionError].  It never raises [ValueError]. *)
Theorem transformer_ends_by_the_depth_of_the_stack
    (input : string) (l : list value) (rest : string) (stack : nat) :
  Lark.parse input = Lark.Parsed l rest ->
  exists t : tree,
    T.transform_start l = Some t /\
    T.transform_start_within stack l =
    if levels_start l <=? stack then inr t else inl T.RecursionError.
Proof.
  intros Hparse. apply parse_start_floats_read in Hparse.
  destruct (transform_all_reads l Hparse) as [ts Hts].
  exists (T.start ts). unfold T.transform_start. rewrite Hts. split; [done|].
  unfold levels_start, T.transform_start_within.
  destruct stack as [|stack1]; [done|].
  change (S ?a <=? S stack1) with (a <=? stack1).
  destruct (Nat.leb_spec (foldr (fun v n => Nat.max (levels v) n) O l) stack1) as [Hle|Hgt].
  - by rewrite transform_all_within_enough, Hts.
  - by rewrite transform_all_within_short.
Qed.

Lemma transformer_ends_by_the_depth_of_the_stack_witness :
  exists t : tree,
    T.transform_start [value_const "a" (value_const "b" (value_NUM "5"))] = Some t /\
    T.transform_start_within 5 [value_const "a" (value_const "b" (value_NUM "5"))] =
    inl T.RecursionError.
Proof.
  exact (transformer_ends_by_the_depth_of_the_stack "set a = set b = 5"
           [value_const "a" (value_const "b" (value_NUM "5"))] "" 5 eq_refl).
Defined.

(** ** The order of the keys of a record *)

Lemma filter_all {A : Type} (P : A -> Prop) `{forall x, Decision (P x)} (l : list A) :
  (forall x, P x) -> filter P l = l.
Proof.
  intros HP. induction l as [|x l IH]; [done|].
  by rewrite filter_cons_True, IH.
Qed.

Lemma dict_update_keys {A : Type} (d pairs : list (string * A)) :
  map fst (dict_update d pairs) =
  map fst d ++ filter (fun k => k ∉ map fst d) (first_occurrences (map fst pairs)).
Proof.
  revert d. induction pairs as [|[k v] pairs IH]; intros d; simpl.
  - by rewrite List.app_nil_r.
  - change (dict_update d ((k, v) :: pairs)) with (dict_update (dict_setitem d k v) pairs).
    rewrite IH. destruct (decide (k ∈ map fst d)) as [Hin|Hout].
    + rewrite dict_setitem_keys by done.
      rewrite filter_cons_False by (by intros ?). f_equal.
      rewrite list_filter_filter_l; [done|]. intros x Hx ->. done.
    + rewrite dict_setitem_fresh by done. rewrite map_app. simpl.
      rewrite filter_cons_True by done. rewrite <- List.app_assoc. simpl. do 2 f_equal.
      rewrite list_filter_filter. apply list_filter_iff. intros x.
      rewrite not_elem_of_app, list_elem_of_singleton. done.
Qed.

(** A record keeps its keys in the order in which the text first names
    them: the transformer builds it so, and evaluation returns a record
    with the same keys in the same order. *)
Theorem record_keys_in_order_of_first_occurrence (pairs : list (string * tree)) :
  (exists d, T.dict pairs = VDict d /\
             map fst d = first_occurrences (map fst pairs)) /\
  (forall (env env' : gmap string tree) (r : tree),
      interp (T.dict pairs) env = (env', Return r) ->
      exists out, r = VDict out /\
                  map fst out = first_occurrences (map fst pairs)).
Proof.
  assert (Hkeys : map fst (dict pairs) = first_occurrences (map fst pairs)).
  { rewrite dict_unfold, dict_update_keys. simpl.
    apply filter_all. intros x. apply not_elem_of_nil. }
  split.
  - exists (dict pairs). by split.
  - intros env env' r Hr. simpl in Hr.
    apply interp_dict_keys in Hr.
    + destruct Hr as (out & -> & Hout). exists out. split; [done|]. by rewrite Hout.
    + simpl. rewrite dict_unfold. apply dict_update_NoDup. constructor.
Qed.

Lemma record_keys_in_order_of_first_occurrence_witness :
  exists out,
    VDict [("B", VFloat (number 3)); ("A", VFloat (number 2))] = VDict out /\
    map fst out = first_occurrences (map fst [("B", VFloat (number 1));
                                              ("A", VFloat (number 2));
                                              ("B", VFloat (number 3))]).
Proof.
  apply (proj2 (record_keys_in_order_of_first_occurrence
                  [("B", VFloat (number 1)); ("A", VFloat (number 2));
                   ("B", VFloat (number 3))]) ∅ ∅).
  vm_compute. reflexivity.
Defined.

(** ** Programs without names *)

Lemma forallb_dict_setitem {A : Type} (f : A -> bool) (d : list (string * A)) k v :
  forallb (fun kv => f kv.2) d = true -> f v = true ->
  forallb (fun kv => f kv.2) (dict_setitem d k v) = true.
Proof.
  intros Hd Hv. induction d as [|[k' v'] d IH]; simpl in *.
  - by rewrite Hv.
  - apply andb_prop in Hd as [Hv' Hd].
    destruct (String.eqb k' k); simpl.
    + by rewrite Hv, Hd.
    + by rewrite Hv', IH.
Qed.

Lemma forallb_dict_update {A : Type} (f : A -> bool) (d pairs : list (string * A)) :
  forallb (fun kv => f kv.2) d = true ->
  forallb (fun kv => f kv.2) pairs = true ->
  forallb (fun kv => f kv.2) (dict_update d pairs) = true.
Proof.
  revert d. induction pairs as [|[k v] pairs IH]; intros d Hd Hp; simpl in *; [done|].
  apply andb_prop in Hp as [Hv Hp].
  apply IH; [|done]. by apply forallb_dict_setitem.
Qed.

Lemma transform_dict assigns :
  T.transform (value_dict assigns) = T.dict <$> children_of T.transform assigns.
Proof. reflexivity. Qed.

(** What the transformer builds has in each dictionary each key once. *)
Lemma transform_proper v t :
  T.transform v = Some t -> proper_dicts t = true.
Proof.
  revert t. induction v as [text|assigns IH|name v IH|name] using value_induction;
    intros t Ht.
  - simpl in Ht. unfold T.NUM in Ht. destruct (float text); [|done].
    by injection Ht as <-.
  - rewrite transform_dict in Ht.
    destruct (children_of T.transform assigns) as [cs|] eqn:Hcs; [|done].
    injection Ht as <-. simpl.
    apply andb_true_intro. split.
    + apply bool_decide_eq_true. rewrite dict_unfold. apply dict_update_NoDup. constructor.
    + rewrite dict_unfold. apply (forallb_dict_update proper_dicts); [done|].
      clear -IH Hcs. revert cs Hcs.
      induction IH as [|[k v] l Hv _ IHl]; intros cs Hcs; simpl in *.
      * by injection Hcs as <-.
      * destruct (T.transform v) as [t|] eqn:Ht; [|done].
        destruct (children_of T.transform l) as [r|]; [|done].
        injection Hcs as <-. simpl.
        by rewrite (Hv t eq_refl), (IHl r).
  - simpl in Ht. destruct (T.transform v) as [t'|]; [|done].
    injection Ht as <-. simpl. by apply IH.
  - simpl in Ht. by injection Ht as <-.
Qed.

Lemma transform_all_proper l ts :
  T.transform_all l = Some ts -> forallb proper_dicts ts = true.
Proof.
  revert ts. induction l as [|v l IH]; intros ts; simpl.
  - by intros [= <-].
  - destruct (T.transform v) as [t|] eqn:Ht; [|done].
    destruct (T.transform_all l) as [ts'|]; [|done].
    intros [= <-]. simpl.
    by rewrite (transform_proper v t Ht), (IH ts').
Qed.

(** A program in which no constant is declared or referenced, numbers and
    records of numbers at any depth, evaluates to what the transformer made
    of it, and the environment stays empty. *)
Theorem program_without_names_is_identity
    (input : string) (l : list value) (rest : string) (t : tree) :
  Lark.parse input = Lark.Parsed l rest ->
  T.transform_start l = Some t ->
  resolved t = true ->
  run input = Value ∅ t.
Proof.
  intros Hparse Ht Hres. unfold run. rewrite Hparse, Ht.
  unfold T.transform_start in Ht.
  destruct (T.transform_all l) as [ts|] eqn:Hts; [|done]. injection Ht as <-.
  rewrite interp_plain; [done|done|].
  simpl. by apply (transform_all_proper l).
Qed.

Lemma program_without_names_is_identity_witness :
  run "7 { A -> 1. B -> { C -> 2. }. A -> 3. }" =
  Value ∅ (VList [VFloat (number 7);
                  VDict [("A", VFloat (number 3)); ("B", VDict [("C", VFloat (number 2))])]]).
Proof.
  apply (program_without_names_is_identity _
           [value_NUM "7";
            value_dict [("A", value_NUM "1");
                        ("B", value_dict [("C", value_NUM "2")]);
                        ("A", value_NUM "3")]] "").
  - vm_compute. reflexivity.
  - vm_compute. reflexivity.
  - reflexivity.
Defined.

(** ** The output is no program *)

Lemma parse_bracket s : Lark.parse (String "[" s) = Lark.UnexpectedInput.
Proof.
  unfold Lark.parse. rewrite parse_start_S, parse_value_S. reflexivity.
Qed.

(** What [json.dumps] writes for the result of a run is rejected by the
    parser of the program: the output cannot be read back. *)
Theorem output_is_not_a_program
    (float_repr : spec_float -> string) (input : string)
    (env : gmap string tree) (v : tree) :
  run input = Value env v ->
  Lark.parse (dumps float_repr v) = Lark.UnexpectedInput.
Proof.
  unfold run. destruct (Lark.parse input) as [l rest| |]; [|done|done].
  unfold T.transform_start. destruct (T.transform_all l) as [ts|]; [|done]. simpl.
  destruct (interp_list interp ts ∅ []) as [env' [r|e]] eqn:Hrun; [|done].
  intros [= _ <-]. apply interp_list_result in Hrun as [out ->].
  simpl. rewrite app_cons, app_nil_l. apply parse_bracket.
Qed.

Lemma output_is_not_a_program_witness :
  Lark.parse (dumps (fun _ => "5.0") (VList [VFloat (number 5)])) = Lark.UnexpectedInput.
Proof.
  apply (output_is_not_a_program (fun _ => "5.0") "5" ∅). vm_compute. reflexivity.
Defined.

(** ** What a run changes in the environment *)

(** Evaluation changes the binding of a name only through a declaration of
    that name that it reaches: a value that declares no [x] leaves [x] bound
    to what it was bound, or unbound, also when the evaluation raises. *)
Theorem undeclared_name_keeps_its_binding
    (x : string) (t : tree) (env : gmap string tree) :
  declares x t = false -> (interp t env).1 !! x = env !! x.
Proof. apply interp_undeclared. Qed.

Lemma undeclared_name_keeps_its_binding_witness :
  (interp (VList [VConst "y" (VFloat (number 2)); VDict [("k", VRef "x")]])
          (<["x" := VFloat (number 1)]> ∅)).1 !! "x" =
  (<["x" := VFloat (number 1)]> ∅ : gmap string tree) !! "x".
Proof.
  apply undeclared_name_keeps_its_binding. reflexivity.
Defined.

(** [interp] raises [KeyError] exactly when, in its order of evaluation, it
    reaches a reference whose name is bound neither in the starting
    environment nor by a declaration reached before ([bound_after] is
    [None]); the name of the exception is then unbound in the environment
    left behind.  Otherwise it returns, and the names bound at the end are
    those of the start and of the declarations reached. *)
Theorem KeyError_exactly_on_unbound_reference (t : tree) (env : gmap string tree) :
  match bound_after t (dom env) with
  | Some names =>
      dom (interp t env).1 = names /\ exists v, (interp t env).2 = Return v
  | None =>
      exists name, (interp t env).2 = Raise (KeyError name) /\
                   name ∉ dom (interp t env).1
  end.
Proof. exact (interp_by_names t env). Qed.


(** ** Numbers with a fractional part *)

Lemma NUM_cut_at_dot (acc ds rest : string) :
  ds <> EmptyString -> all digit ds = true ->
  exec (Seq (Alt (Plus digit)
                 (Alt (Seq (Plus digit) (Seq (Chr (lit ".")) (Star digit)))
                      (Seq (Chr (lit ".")) (Plus digit))))
            (Opt (Seq (Chr eE) (Seq (Opt (Chr sign)) (Plus digit)))))
       acc (ds +:+ "." +:+ rest) (fun a r => Some (a, r)) =
  Some (acc +:+ ds, "." +:+ rest).
Proof.
  intros Hne Hds. destruct ds as [|d ds]; [done|].
  simpl in Hds. apply andb_prop in Hds as [Hd Hds].
  rewrite app_cons.
  change (exec (Seq (Alt ?a ?b) ?c) acc ?s ?k)
    with (match exec a acc s (fun acc' s' => exec c acc' s' k) with
          | Some x => Some x
          | None => exec b acc s (fun acc' s' => exec c acc' s' k)
          end).
  set (k := fun acc' s' => exec (Opt _) acc' s' _).
  assert (Hk : forall a u, is_Some (k a u)) by (intros a u; by apply Opt_total).
  change (exec (Plus digit) acc (String d ?s) k)
    with (if digit d then star digit (acc +:+ String d EmptyString) s k else None).
  rewrite Hd, star_greedy by done.
  rewrite (span_all digit ds ("." +:+ rest)) by done.
  cbn [fst snd]. rewrite <- app_assoc, app_cons, app_nil_l.
  reflexivity.
Qed.

Lemma digits_announced (ds fs : string) :
  ds <> EmptyString -> all digit ds = true ->
  fs <> EmptyString -> all digit fs = true ->
  lang NUMBER_announced (ds +:+ "." +:+ fs).
Proof.
  intros Hds1 Hds Hfs1 Hfs.
  destruct ds as [|d ds]; [done|]. destruct fs as [|f fs]; [done|].
  simpl in Hds, Hfs. apply andb_prop in Hds as [Hd Hds]. apply andb_prop in Hfs as [Hf Hfs].
  unfold NUMBER_announced, MINUS, EXPONENT, DOT_DIGITS.
  rewrite <- (app_nil_l (String d ds +:+ _)). constructor; [constructor|].
  rewrite <- (app_nil_r (String d ds +:+ _)). constructor; [|constructor].
  apply lang_Alt_l. constructor; [by constructor|].
  apply lang_Opt_some.
  change ("." +:+ String f fs) with (String "." EmptyString +:+ String f fs).
  constructor; by constructor.
Qed.

(** C8.  The lexer does not read a number with a fractional part as one
    token.  The pattern of [NUM] lists [\d+] before [\d+\.\d*], and Lark
    applies it with [match], which takes the first alternative that lets
    the pattern match: on digits followed by a dot the token is the digits,
    with their sign, and ends before the dot, whatever follows.  So a text
    of the announced shape, digits, a dot and digits, is not a [NUM] token:
    the lexer cuts it in two.  The program [5.5] is the program of the two
    numbers [5] and [.5], and a record with the entry [A -> 5.5.] is
    rejected. *)
Theorem fractional_number_is_cut_at_the_dot :
  (forall minus ds rest : string,
      minus = EmptyString \/ minus = "-" ->
      ds <> EmptyString -> all digit ds = true ->
      match_ NUM (minus +:+ ds +:+ "." +:+ rest) = Some (minus +:+ ds, "." +:+ rest)) /\
  (forall ds fs : string,
      ds <> EmptyString -> all digit ds = true ->
      fs <> EmptyString -> all digit fs = true ->
      lang NUMBER_announced (ds +:+ "." +:+ fs) /\
      match_ NUM (ds +:+ "." +:+ fs) <> Some (ds +:+ "." +:+ fs, EmptyString)) /\
  Lark.parse "5.5" = Lark.Parsed [value_NUM "5"; value_NUM ".5"] EmptyString /\
  run "5.5" = run "5 .5" /\
  Lark.parse "{ A -> 5.5. }" = Lark.UnexpectedInput.
Proof.
  assert (Hcut : forall minus ds rest : string,
             minus = EmptyString \/ minus = "-" ->
             ds <> EmptyString -> all digit ds = true ->
             match_ NUM (minus +:+ ds +:+ "." +:+ rest) =
             Some (minus +:+ ds, "." +:+ rest)).
  { intros minus ds rest Hminus Hne Hds. unfold match_, NUM.
    change (exec (Seq (Opt ?a) ?b) EmptyString ?s ?k)
      with (match exec a EmptyString s (fun acc' s' => exec b acc' s' k) with
            | Some x => Some x
            | None => exec b EmptyString s k
            end).
    destruct Hminus as [->| ->].
    - rewrite !app_nil_l. destruct ds as [|d ds']; [done|].
      assert (Hd : lit "-" d = false).
      { simpl in Hds. apply andb_prop in Hds as [Hd _].
        unfold lit. by destruct (Ascii.eqb_spec "-" d) as [<-|]. }
      rewrite app_cons.
      change (exec (Chr (lit "-")) EmptyString (String d ?s) ?k)
        with (if lit "-" d then k (EmptyString +:+ String d EmptyString) s else None).
      rewrite Hd, <- app_cons, NUM_cut_at_dot by done. by rewrite app_nil_l.
    - change ("-" +:+ ds +:+ "." +:+ rest) with (String "-" (ds +:+ "." +:+ rest)).
      change (exec (Chr (lit "-")) EmptyString (String "-" ?s) ?k) with (k "-" s).
      cbv beta. by rewrite NUM_cut_at_dot. }
  split; [exact Hcut|]. split.
  - intros ds fs Hds1 Hds Hfs1 Hfs. split; [by apply digits_announced|].
    specialize (Hcut EmptyString ds fs (or_introl eq_refl) Hds1 Hds).
    rewrite !app_nil_l in Hcut. rewrite Hcut. intros [= H].
  - repeat split; vm_compute; reflexivity.
Qed.

Lemma fractional_number_is_cut_at_the_dot_witness :
  match_ NUM "-12.75e3 }" = Some ("-12", ".75e3 }") /\
  (lang NUMBER_announced "5.5" /\ match_ NUM "5.5" <> Some ("5.5", EmptyString)).
Proof.
  split.
  - apply (proj1 fractional_number_is_cut_at_the_dot "-" "12" "75e3 }");
      [right; reflexivity | discriminate | reflexivity].
  - apply (proj1 (proj2 fractional_number_is_cut_at_the_dot) "5" "5");
      [discriminate | reflexivity | discriminate | reflexivity].
Defined.

(** * The other programs: properties *)

(** ** Python strings *)

Lemma keyword_app kw s rest : Lark.keyword kw s = Some rest -> s = kw +:+ rest.
Proof.
  revert s. induction kw as [|a kw IH]; intros s; simpl.
  - destruct s; intros [= <-]; done.
  - destruct s as [|b s]; [done|]. destruct (Ascii.eqb_spec a b) as [->|]; [|done].
    intros H. rewrite app_cons. f_equal. by apply IH.
Qed.

Lemma prefix_app p s t : String.prefix p s = true -> String.prefix p (s +:+ t) = true.
Proof.
  revert s. induction p as [|a p IH]; intros s.
  - intros _. by destruct (s +:+ t).
  - destruct s as [|b s]; [done|]. rewrite app_cons. simpl.
    destruct (ascii_dec a b); [apply IH | done].
Qed.

Lemma prefix_refl_app p t : String.prefix p (p +:+ t) = true.
Proof.
  induction p as [|a p IH]; [by destruct t|]. rewrite app_cons. simpl.
  by destruct (ascii_dec a a).
Qed.

(** A one-character text occurs in [s] when its character does. *)
Lemma contains_char_cons c d s :
  PyStr.contains (String d s) (String c EmptyString) =
  Ascii.eqb c d || PyStr.contains s (String c EmptyString).
Proof.
  simpl. destruct (Ascii.eqb_spec c d) as [->|Hne].
  - destruct (ascii_dec d d); [|done]. by destruct s.
  - by destruct (ascii_dec c d).
Qed.

Lemma contains_char_app c s t :
  PyStr.contains (s +:+ t) (String c EmptyString) =
  PyStr.contains s (String c EmptyString) || PyStr.contains t (String c EmptyString).
Proof.
  induction s as [|d s IH]; [done|].
  rewrite app_cons, !contains_char_cons, IH. by rewrite orb_assoc.
Qed.

Lemma split1_char_cons c d s :
  PyStr.split1 (String d s) (String c EmptyString) =
  if Ascii.eqb c d then Some (EmptyString, s)
  else match PyStr.split1 s (String c EmptyString) with
       | Some (before, after) => Some (String d before, after)
       | None => None
       end.
Proof. simpl. destruct (Ascii.eqb c d); [by destruct s | done]. Qed.

Lemma split1_char_nil c : PyStr.split1 EmptyString (String c EmptyString) = None.
Proof. reflexivity. Qed.

(** [split(c, 1)] cuts at the first [c]: what it returns, put together
    again around [c], is the text, and the first part holds no [c]. *)
Lemma split1_char c s before after :
  PyStr.split1 s (String c EmptyString) = Some (before, after) <->
  s = before +:+ String c after /\
  PyStr.contains before (String c EmptyString) = false.
Proof.
  revert before. induction s as [|d s IH]; intros before.
  - rewrite split1_char_nil. split; [done|]. intros [H _]. by destruct before.
  - rewrite split1_char_cons. destruct (Ascii.eqb_spec c d) as [->|Hne].
    + split.
      * intros [= <- <-]. done.
      * intros [H Hno]. destruct before as [|b before].
        -- rewrite app_nil_l in H. by injection H as <-.
        -- rewrite app_cons in H. injection H as <- _.
           rewrite contains_char_cons, Ascii.eqb_refl in Hno. done.
    + destruct (PyStr.split1 s (String c EmptyString)) as [[b a]|] eqn:Hs.
      * split.
        -- intros [= <- <-]. destruct (IH b) as [[-> Hno] _]; [done|]. split; [done|].
           rewrite contains_char_cons, Hno.
           by destruct (Ascii.eqb_spec c d).
        -- intros [H Hno]. destruct before as [|b' before].
           ++ rewrite app_nil_l in H. injection H as <- _. done.
           ++ rewrite app_cons in H. injection H as <- ->.
              rewrite contains_char_cons in Hno. apply orb_false_elim in Hno as [_ Hno].
              assert (Some (b, a) = Some (before, after)) as [= -> ->]; [|done].
              by apply IH.
      * split; [done|]. intros [H Hno]. destruct before as [|b' before].
        -- rewrite app_nil_l in H. injection H as <- _. done.
        -- rewrite app_cons in H. injection H as <- ->.
           rewrite contains_char_cons in Hno. apply orb_false_elim in Hno as [_ Hno].
           assert (None = Some (before, after)); [|done]. by apply IH.
Qed.

Lemma split1_char_None c s :
  PyStr.split1 s (String c EmptyString) = None <->
  PyStr.contains s (String c EmptyString) = false.
Proof.
  induction s as [|d s IH]; [done|].
  rewrite split1_char_cons, contains_char_cons.
  destruct (Ascii.eqb c d); [done|]. simpl.
  destruct (PyStr.split1 s (String c EmptyString)) as [[b a]|].
  - split; [done|]. intros H. by apply IH in H.
  - split; [|done]. intros _. by apply IH.
Qed.

Lemma endswith_app s t : PyStr.endswith (s +:+ t) t = true.
Proof.
  induction s as [|c s IH].
  - rewrite app_nil_l. destruct t; simpl; [done|]. by rewrite Ascii.eqb_refl, String.eqb_refl.
  - rewrite app_cons. simpl. rewrite IH. by rewrite orb_true_r.
Qed.

Lemma replace_from_skip old new s t :
  PyStr.replace_from old new (String.length s) (s +:+ t) = PyStr.replace_from old new 0 t.
Proof.
  induction s as [|c s IH]; [done|]. rewrite app_cons. simpl. apply IH.
Qed.

(** [replace] rewrites an occurrence at the head and goes on behind it. *)
Lemma replace_head old new s :
  old <> EmptyString ->
  PyStr.replace (old +:+ s) old new = new +:+ PyStr.replace s old new.
Proof.
  intros Hold. destruct old as [|c old]; [done|]. unfold PyStr.replace.
  rewrite app_cons.
  change (PyStr.replace_from ?o new 0 (String c ?u))
    with (if String.prefix o (String c u)
          then new +:+ PyStr.replace_from o new (String.length o - 1) u
          else String c (PyStr.replace_from o new 0 u)).
  rewrite <- app_cons, prefix_refl_app. f_equal.
  simpl. rewrite Nat.sub_0_r. apply replace_from_skip.
Qed.

(** A text without the first character of [old] has no occurrence of it. *)
Lemma replace_absent c old new s :
  PyStr.contains s (String c EmptyString) = false ->
  PyStr.replace s (String c old) new = s.
Proof.
  unfold PyStr.replace. induction s as [|d s IH]; [done|].
  rewrite contains_char_cons. intros H. apply orb_false_elim in H as [Hd Hs].
  simpl. destruct (ascii_dec c d) as [->|_]; [by rewrite Ascii.eqb_refl in Hd|].
  f_equal. by apply IH.
Qed.

(** ** konfpr2.py: the package and the address of its POM *)

(** [print_config_and_validate] returns a pair exactly when the package is
    [group_id:artifact_id] with both parts non-empty, cut at its first colon,
    and the repository suits the mode: a text that starts with [http://] or
    [https://] in remote mode, a directory in local mode.  In every other
    case it raises [CLIError].  So the pair, joined with a colon as [run]
    does for the root of the graph, is the package again. *)
Theorem package_is_validated_and_split
    (isdir : string -> bool) (header : string) (a : Konfpr2.args)
    (group_id artifact_id : string) :
  (Konfpr2.print_config_and_validate isdir header a).2 = inr (group_id, artifact_id) <->
  Konfpr2.package a = group_id +:+ ":" +:+ artifact_id /\
  PyStr.contains group_id ":" = false /\
  group_id <> EmptyString /\ artifact_id <> EmptyString /\
  match Konfpr2.mode_ a with
  | Konfpr2.remote =>
      PyStr.startswith (Konfpr2.repo a) "http://" = true \/
      PyStr.startswith (Konfpr2.repo a) "https://" = true
  | Konfpr2.local => isdir (Konfpr2.repo a) = true
  end.
Proof.
  unfold Konfpr2.print_config_and_validate. cbn [snd].
  destruct (PyStr.contains (Konfpr2.package a) ":") eqn:Hin; cbn [negb].
  - destruct (PyStr.split1 (Konfpr2.package a) ":") as [[g art]|] eqn:Hsplit.
    + apply split1_char in Hsplit as [Hpkg Hno].
      assert (Hiff : forall g' art', Konfpr2.package a = g' +:+ ":" +:+ art' ->
                  PyStr.contains g' ":" = false -> g' = g /\ art' = art).
      { intros g' art' H1 H2.
        assert (PyStr.split1 (Konfpr2.package a) ":" = Some (g', art')) as H3
          by (by apply split1_char).
        assert (PyStr.split1 (Konfpr2.package a) ":" = Some (g, art)) as H4
          by (by apply split1_char).
        rewrite H3 in H4. by injection H4 as -> ->. }
      destruct g as [|c g].
      { split; [done|]. intros (H1 & H2 & H3 & _). by destruct (Hiff _ _ H1 H2) as [-> _]. }
      destruct art as [|c' art].
      { split; [done|]. intros (H1 & H2 & _ & H3 & _). by destruct (Hiff _ _ H1 H2) as [_ ->]. }
      destruct (Konfpr2.mode_ a).
      * destruct (PyStr.startswith (Konfpr2.repo a) "http://") eqn:H1;
          destruct (PyStr.startswith (Konfpr2.repo a) "https://") eqn:H2; cbn [orb negb].
        all: split;
          [ intros [= <- <-]; repeat split; auto
          | intros (E1 & E2 & _ & _ & E3); destruct (Hiff _ _ E1 E2) as [-> ->];
            try done; by destruct E3 ].
      * destruct (isdir (Konfpr2.repo a)) eqn:H1; cbn [negb].
        all: split;
          [ intros [= <- <-]; repeat split; auto
          | intros (E1 & E2 & _ & _ & E3); destruct (Hiff _ _ E1 E2) as [-> ->];
            try done ].
    + apply split1_char_None in Hsplit. congruence.
  - split; [done|]. intros (H1 & _).
    rewrite H1, contains_char_app in Hin. apply orb_false_elim in Hin as [_ Hin].
    rewrite app_cons, contains_char_cons, Ascii.eqb_refl in Hin. done.
Qed.

(** A slash at the end of the repository address makes no difference to
    the address of the POM. *)
Theorem trailing_slash_of_repo_is_immaterial
    (repo_url group_id artifact_id version : string) :
  PyStr.endswith repo_url "/" = false ->
  Konfpr2.build_pom_path_remote (repo_url +:+ "/") group_id artifact_id version =
  Konfpr2.build_pom_path_remote repo_url group_id artifact_id version.
Proof.
  intros H. unfold Konfpr2.build_pom_path_remote.
  rewrite endswith_app, H. cbv zeta. by rewrite <- !app_assoc.
Qed.

Lemma trailing_slash_of_repo_is_immaterial_witness :
  Konfpr2.build_pom_path_remote "https://repo1.maven.org/maven2/" "org.apache.commons"
    "commons-lang3" "3.12.0" =
  Konfpr2.build_pom_path_remote "https://repo1.maven.org/maven2" "org.apache.commons"
    "commons-lang3" "3.12.0".
Proof.
  apply (trailing_slash_of_repo_is_immaterial "https://repo1.maven.org/maven2").
  reflexivity.
Defined.

(** In remote mode the address that [run] builds for a validated package,
    and hands to [urlopen], starts with [http://] or [https://]: no other
    scheme and no local path gets through. *)
Theorem remote_address_is_http
    (isdir : string -> bool) (header : string) (a : Konfpr2.args)
    (group_id artifact_id : string) :
  Konfpr2.mode_ a = Konfpr2.remote ->
  (Konfpr2.print_config_and_validate isdir header a).2 = inr (group_id, artifact_id) ->
  let pom_url :=
    Konfpr2.build_pom_path_remote (Konfpr2.repo a) group_id artifact_id (Konfpr2.version a) in
  PyStr.startswith pom_url "http://" = true \/ PyStr.startswith pom_url "https://" = true.
Proof.
  intros Hmode Hok pom_url. subst pom_url.
  unfold Konfpr2.print_config_and_validate in Hok. cbn [snd] in Hok. rewrite Hmode in Hok.
  assert (Hrepo : PyStr.startswith (Konfpr2.repo a) "http://" = true \/
                  PyStr.startswith (Konfpr2.repo a) "https://" = true).
  { destruct (negb (PyStr.contains (Konfpr2.package a) ":")); [done|].
    destruct (PyStr.split1 (Konfpr2.package a) ":") as [[g art]|]; [|done].
    destruct g; [done|]. destruct art; [done|].
    destruct (PyStr.startswith (Konfpr2.repo a) "http://"); [by left|].
    destruct (PyStr.startswith (Konfpr2.repo a) "https://"); [by right|]. done. }
  unfold Konfpr2.build_pom_path_remote, PyStr.startswith in *. cbv zeta.
  destruct (PyStr.endswith (Konfpr2.repo a) "/");
    destruct Hrepo as [H|H]; [left|right|left|right]; by apply prefix_app.
Qed.

Lemma remote_address_is_http_witness :
  let a := {| Konfpr2.package := "org.apache.commons:commons-lang3";
              Konfpr2.version := "3.12.0";
              Konfpr2.repo := "https://repo1.maven.org/maven2";
              Konfpr2.mode_ := Konfpr2.remote;
              Konfpr2.render := false;
              Konfpr2.out_dot := None |} in
  let pom_url :=
    Konfpr2.build_pom_path_remote (Konfpr2.repo a) "org.apache.commons" "commons-lang3"
      (Konfpr2.version a) in
  PyStr.startswith pom_url "http://" = true \/ PyStr.startswith pom_url "https://" = true.
Proof.
  intros a.
  apply (remote_address_is_http (fun _ => false) "" a "org.apache.commons" "commons-lang3");
    reflexivity.
Defined.

(** ** konf1.py: environment variables in a command *)

Lemma exp_cons k v environ a :
  Konf1.exp ((k, v) :: environ) a = Konf1.exp environ (PyStr.replace a ("$" +:+ k) v).
Proof. reflexivity. Qed.

(** A text without a dollar sign is left as it is, whatever the
    environment holds. *)
Theorem text_without_dollar_is_unchanged (environ : list (string * string)) (a : string) :
  PyStr.contains a "$" = false -> Konf1.exp environ a = a.
Proof.
  intros H. induction environ as [|[k v] environ IH]; [done|].
  rewrite exp_cons. change ("$" +:+ k) with (String "$" k).
  by rewrite replace_absent.
Qed.

Lemma text_without_dollar_is_unchanged_witness :
  Konf1.exp [("HOME", "/root"); ("USER", "me")] "ls -l /tmp" = "ls -l /tmp".
Proof. apply text_without_dollar_is_unchanged. reflexivity. Defined.

(** A variable is recognised by the text [$NAME] alone, not by where the
    name ends: whatever follows [$NAME], letters of a longer name included,
    stays behind the value ([$HOMEDIR] becomes the value of [HOME] followed
    by [DIR]). *)
Theorem variable_is_matched_as_prefix (k v s : string) :
  Konf1.exp [(k, v)] ("$" +:+ k +:+ s) = v +:+ Konf1.exp [(k, v)] s.
Proof.
  rewrite !exp_cons. unfold Konf1.exp. cbn [fold_left].
  rewrite app_assoc. by apply replace_head.
Qed.
